(** * COPOD: copula-based outlier detector (pyod/models/copod.py)

    A shallow embedding of the [COPOD] class and of the library calls it
    relies on, followed by the properties of its scoring pipeline.

    Numbers.  The source computes on IEEE doubles; this development reads
    every numeric operation over the real numbers ([R], with [ln] for
    [np.log]), so rounding, NaN and infinities are outside the model, and
    the statements about [decision_function], [fit] and [explain_outlier]
    are statements about the exact-arithmetic reading of the code.  The
    one step whose outcome rounding changes altogether, the sign of a
    column's skewness, is also followed in binary64 (Rocq's primitive
    floats): [decision_function64] and [fit64] compute it as numpy and
    scipy do, and the statements that compare the scores of two passes are
    made about them.

    Objects.  A detector instance is a record of optional attributes: an
    attribute that has not been assigned yet is [None], which is what
    [hasattr] observes.  Methods are computations in a state-and-exception
    monad that keeps the state reached when an exception is raised, as a
    Python method does. *)

From Stdlib Require Import Floats.
From Stdlib Require Import Reals Lra Lia List ZArith Bool Permutation Sorted.
Import ListNotations.
Open Scope R_scope.

(* ================================================================== *)
(** * Exceptions and outcomes *)

Inductive exn : Type :=
| AttributeError
| IndexError
| ValueError
| ZeroDivisionError.

Inductive outcome (A : Type) : Type :=
| Returned (a : A)
| Raised (e : exn).
Arguments Returned {A} a.
Arguments Raised {A} e.

Definition obind {A B} (c : outcome A) (k : A -> outcome B) : outcome B :=
  match c with
  | Returned a => k a
  | Raised e => Raised e
  end.

(** Runs [f] on every element, left to right, stopping at the first
    exception. *)
Fixpoint traverse {A B} (f : A -> outcome B) (l : list A) : outcome (list B) :=
  match l with
  | [] => Returned []
  | a :: l' => obind (f a) (fun b => obind (traverse f l') (fun bs => Returned (b :: bs)))
  end.

(* ================================================================== *)
(** * Arrays and the numpy / pandas operations used by the detector *)

(** A two-dimensional array (and likewise a [pd.DataFrame] with default
    labels): its rows, and the column count, which is kept apart because
    an array may have no row.  [shape0] is [X.shape[0]], [shape1] is
    [X.shape[1]]. *)
Record ndarray : Type := mk_array { shape1 : nat; rows : list (list R) }.

Definition shape0 (X : ndarray) : nat := length (rows X).

(** The rectangularity numpy guarantees by construction. *)
Definition well_formed (X : ndarray) : Prop :=
  Forall (fun r => length r = shape1 X) (rows X).

Definition column (j : nat) (X : ndarray) : list R :=
  map (fun r => nth j r 0) (rows X).

Definition columns (X : ndarray) : list (list R) :=
  map (fun j => column j X) (seq 0 (shape1 X)).

(** [np.sign]. *)
Definition sign (x : R) : R :=
  if Rlt_dec 0 x then 1 else if Rlt_dec x 0 then -1 else 0.

(** Sum of a one-dimensional array. *)
Definition sum (l : list R) : R := fold_right Rplus 0 l.

Fixpoint zip_with {A B C} (f : A -> B -> C) (l1 : list A) (l2 : list B) : list C :=
  match l1, l2 with
  | a :: l1', b :: l2' => f a b :: zip_with f l1' l2'
  | _, _ => []
  end.

(** Elementwise unary and binary operations on arrays of one shape, and
    the broadcast of a length-[shape1] vector along the rows (what
    [DataFrame * array] does). *)
Definition arr_map (f : R -> R) (X : ndarray) : ndarray :=
  mk_array (shape1 X) (map (map f) (rows X)).

Definition arr_zip (f : R -> R -> R) (X Y : ndarray) : ndarray :=
  mk_array (shape1 X) (zip_with (zip_with f) (rows X) (rows Y)).

Definition arr_broadcast (f : R -> R -> R) (X : ndarray) (v : list R) : ndarray :=
  mk_array (shape1 X) (map (fun r => zip_with f r v) (rows X)).

(** [np.concatenate((A, B), axis=0)]. *)
Definition concatenate (A B : ndarray) : outcome ndarray :=
  if Nat.eqb (shape1 A) (shape1 B)
  then Returned (mk_array (shape1 A) (rows A ++ rows B))
  else Raised ValueError.

(** [df.sum(axis=1).to_numpy()]: the row sums. *)
Definition sum_axis1 (X : ndarray) : list R := map sum (rows X).

(** The array whose columns are [cols], each of length [n]. *)
Definition of_columns (n : nat) (cols : list (list R)) : ndarray :=
  mk_array (length cols) (map (fun i => map (fun c => nth i c 0) cols) (seq 0 n)).

(** [np.apply_along_axis(f, 0, X)] for an [f] that returns an array: [f]
    is run on each column in turn and the results become the columns of
    the output, whose row count is the length of the first result.  With
    no column to iterate over numpy raises [ValueError]. *)
Definition apply_along_axis (f : list R -> outcome (list R)) (X : ndarray)
  : outcome ndarray :=
  match shape1 X with
  | 0%nat => Raised ValueError
  | _ => obind (traverse f (columns X))
               (fun res => Returned (of_columns (length (hd [] res)) res))
  end.

(** [np.apply_along_axis(f, 0, X)] for an [f] that returns a scalar: one
    value per column. *)
Definition apply_along_axis_scalar (f : list R -> R) (X : ndarray) : list R :=
  map f (columns X).

(** Python's [a[-k:]]: for [k = 0] the slice is [a[0:]], the whole
    array; otherwise it starts [k] places before the end (or at the
    beginning when the array is shorter). *)
Definition slice_from_neg {A} (k : nat) (a : list A) : list A :=
  match k with
  | 0%nat => a
  | _ => skipn (length a - k) a
  end.

(** Integer indexing with Python's convention for negative indices:
    [a[i]] for [-len <= i < len], [IndexError] otherwise.  Used for
    [DataFrame.iloc[i]], for numpy arrays and for lists. *)
Definition getitem {A} (a : list A) (i : Z) : outcome A :=
  let n := Z.of_nat (length a) in
  let k := if (i <? 0)%Z then (n + i)%Z else i in
  if ((0 <=? k)%Z && (k <? n)%Z)%bool
  then match nth_error a (Z.to_nat k) with
       | Some v => Returned v
       | None => Raised IndexError
       end
  else Raised IndexError.

(** In-place assignment [a[i] = v] for [i] in range. *)
Fixpoint set_item {A} (a : list A) (i : nat) (v : A) : list A :=
  match a, i with
  | [], _ => []
  | _ :: a', 0%nat => v :: a'
  | x :: a', S i' => x :: set_item a' i' v
  end.

(** [np.zeros(n)]. *)
Definition zeros (n : nat) : list R := repeat 0 n.

(** Sorting ([np.sort], [ndarray.sort]): insertion sort stands for it;
    only the sorted result matters. *)
Fixpoint insert (x : R) (l : list R) : list R :=
  match l with
  | [] => [x]
  | y :: l' => if Rle_dec x y then x :: y :: l' else y :: insert x l'
  end.

Fixpoint sort (l : list R) : list R :=
  match l with
  | [] => []
  | x :: l' => insert x (sort l')
  end.

(** [np.searchsorted(a, v, side='right')] on a sorted [a]: the index [i]
    with [a[:i] <= v < a[i:]]. *)
Fixpoint searchsorted_right (a : list R) (v : R) : nat :=
  match a with
  | [] => 0%nat
  | x :: a' => if Rle_dec x v then S (searchsorted_right a' v) else 0%nat
  end.

(** [np.linspace(start, stop, num)]: [i * step + start] with
    [step = (stop - start) / (num - 1)], the last sample being set to
    [stop] itself when [num > 1]. *)
Definition linspace (start stop : R) (num : nat) : list R :=
  let step := (stop - start) / INR (num - 1) in
  map (fun i => if ((1 <? num)%nat && (i =? num - 1)%nat)%bool
                then stop
                else INR i * step + start)
      (seq 0 num).

(** The linear-interpolation quantile of numpy and pandas, for a level
    [0 <= q <= 1] and [n] values: on the sorted values, with virtual index
    [q * (n - 1)], the entry below it plus the fractional part of the way
    to the next entry (the last entry when there is no next one).  An
    empty input gives NaN in the libraries; here it gives the default 0,
    and no call below reaches that case on a successful path. *)
Definition quantile_linear (a : list R) (q : R) : R :=
  let s := sort a in
  let n := length a in
  let virtual := q * INR (n - 1) in
  let lo := Z.to_nat (Zfloor virtual) in
  let hi := Nat.min (lo + 1) (n - 1) in
  let gamma := virtual - INR lo in
  nth lo s 0 + (nth hi s 0 - nth lo s 0) * gamma.

(** [np.percentile(a, q)]: levels outside [0, 100] are rejected. *)
Definition percentile (a : list R) (q : R) : outcome R :=
  if Rle_dec 0 q then
    if Rle_dec q 100 then Returned (quantile_linear a (q / 100))
    else Raised ValueError
  else Raised ValueError.

(** [df.quantile(q=q, axis=0)]: one linear-interpolation quantile per
    column; levels outside [0, 1] are rejected. *)
Definition quantile_axis0 (X : ndarray) (q : R) : outcome (list R) :=
  if Rle_dec 0 q then
    if Rle_dec q 1 then Returned (map (fun c => quantile_linear c q) (columns X))
    else Raised ValueError
  else Raised ValueError.

(** [int(df.max().max())]: the largest entry, truncated.  Its value
    only feeds the plot; what matters to the caller is that a frame without
    rows or without columns has NaN for its maximum, which [int] rejects
    with [ValueError]. *)
Definition int_max_max (X : ndarray) : outcome unit :=
  match shape0 X, shape1 X with
  | 0%nat, _ => Raised ValueError
  | _, 0%nat => Raised ValueError
  | _, _ => Returned tt
  end.

(** [sklearn.utils.check_array] as far as shapes go: an array without
    rows or without columns is rejected. *)
Definition check_array (X : ndarray) : outcome ndarray :=
  match shape0 X, shape1 X with
  | 0%nat, _ => Raised ValueError
  | _, 0%nat => Raised ValueError
  | _, _ => Returned X
  end.

(* ================================================================== *)
(** * statsmodels' [ECDF] and scipy's [skew] *)

(** [statsmodels.distributions.empirical_distribution.ECDF]: a step
    function with abscissas [-inf] followed by the sorted sample and
    ordinates [0] followed by [linspace(1/n, 1, n)].  [sf_x] holds the
    abscissas after the [-inf] sentinel.  [1./nobs] is a Python float
    division, which raises for an empty sample. *)
Record StepFunction : Type := mk_step { sf_x : list R; sf_y : list R }.

Definition ECDF (x : list R) : outcome StepFunction :=
  match length x with
  | 0%nat => Raised ZeroDivisionError
  | nobs => Returned (mk_step (sort x) (0 :: linspace (1 / INR nobs) 1 nobs))
  end.

(** [StepFunction.__call__] with [side='right']:
    [tind = searchsorted(x, time, 'right') - 1; return y[tind]].  The
    sentinel [-inf] lies below every real [time], hence the [1 +]. *)
Definition step_call (f : StepFunction) (time : R) : R :=
  let tind := (1 + searchsorted_right (sf_x f) time - 1)%nat in
  nth tind (sf_y f) 0.

Definition mean (l : list R) : R := sum l / INR (length l).

(** [scipy.stats.moment(a, k)]: the [k]-th central moment. *)
Definition moment (k : nat) (l : list R) : R :=
  mean (map (fun x => (x - mean l) ^ k) l).

(** [scipy.stats.skew(a)] (biased): [m3 / m2 ** 1.5], and [0] where
    [m2 = 0], the value the specification relies on for a column without
    variance (scipy releases that answer NaN there are outside a model
    over the reals). *)
Definition skew (l : list R) : R :=
  let m2 := moment 2 l in
  let m3 := moment 3 l in
  if Req_dec_T m2 0 then 0 else m3 / Rpower m2 (3 / 2).

(* ================================================================== *)
(** * The detector instance and its methods *)

(** The attributes of a [COPOD] instance.  [contamination] is set by the
    constructor; every other attribute is absent ([None]) until a method
    assigns it.  [labels_] is a float array holding 0 and 1. *)
Record COPOD : Type := mk_COPOD {
  contamination : R;
  X_train : option ndarray;
  U_l : option ndarray;
  U_r : option ndarray;
  U_skew : option ndarray;
  O : option ndarray;
  decision_scores_ : option (list R);
  threshold_ : option R;
  labels_ : option (list R)
}.

Definition set_X_train (v : ndarray) (s : COPOD) : COPOD :=
  mk_COPOD (contamination s) (Some v) (U_l s) (U_r s) (U_skew s) (O s)
           (decision_scores_ s) (threshold_ s) (labels_ s).
Definition set_U_l (v : ndarray) (s : COPOD) : COPOD :=
  mk_COPOD (contamination s) (X_train s) (Some v) (U_r s) (U_skew s) (O s)
           (decision_scores_ s) (threshold_ s) (labels_ s).
Definition set_U_r (v : ndarray) (s : COPOD) : COPOD :=
  mk_COPOD (contamination s) (X_train s) (U_l s) (Some v) (U_skew s) (O s)
           (decision_scores_ s) (threshold_ s) (labels_ s).
Definition set_U_skew (v : ndarray) (s : COPOD) : COPOD :=
  mk_COPOD (contamination s) (X_train s) (U_l s) (U_r s) (Some v) (O s)
           (decision_scores_ s) (threshold_ s) (labels_ s).
Definition set_O (v : ndarray) (s : COPOD) : COPOD :=
  mk_COPOD (contamination s) (X_train s) (U_l s) (U_r s) (U_skew s) (Some v)
           (decision_scores_ s) (threshold_ s) (labels_ s).
Definition set_decision_scores_ (v : list R) (s : COPOD) : COPOD :=
  mk_COPOD (contamination s) (X_train s) (U_l s) (U_r s) (U_skew s) (O s)
           (Some v) (threshold_ s) (labels_ s).
Definition set_threshold_ (v : R) (s : COPOD) : COPOD :=
  mk_COPOD (contamination s) (X_train s) (U_l s) (U_r s) (U_skew s) (O s)
           (decision_scores_ s) (Some v) (labels_ s).
Definition set_labels_ (v : list R) (s : COPOD) : COPOD :=
  mk_COPOD (contamination s) (X_train s) (U_l s) (U_r s) (U_skew s) (O s)
           (decision_scores_ s) (threshold_ s) (Some v).

(** Methods: from the instance to the instance afterwards and either a
    return value or the exception raised. *)
Definition M (A : Type) : Type := COPOD -> COPOD * outcome A.

Definition ret {A} (a : A) : M A := fun s => (s, Returned a).

Definition bind {A B} (c : M A) (k : A -> M B) : M B :=
  fun s => match c s with
           | (s', Returned a) => k a s'
           | (s', Raised e) => (s', Raised e)
           end.

Notation "x <- c ;; k" := (bind c (fun x => k))
  (at level 61, c at next level, right associativity).
Notation "c ;; k" := (bind c (fun _ => k))
  (at level 61, right associativity).

(** A library call: no effect on the instance. *)
Definition lift {A} (o : outcome A) : M A := fun s => (s, o).

(** [hasattr]-style read: the attribute, present or not. *)
Definition gets {A} (f : COPOD -> A) : M A := fun s => (s, Returned (f s)).

(** [self.attr]: [AttributeError] when the attribute was never set. *)
Definition getattr {A} (f : COPOD -> option A) : M A :=
  fun s => match f s with
           | Some v => (s, Returned v)
           | None => (s, Raised AttributeError)
           end.

(** [self.attr = v]. *)
Definition modify (f : COPOD -> COPOD) : M unit := fun s => (f s, Returned tt).

Fixpoint for_each {A} (l : list A) (body : A -> M unit) : M unit :=
  match l with
  | [] => ret tt
  | a :: l' => body a ;; for_each l' body
  end.

(** Modelled from the spec: [BaseDetector.__init__] (pyod/models/base.py),
    to which [COPOD.__init__] delegates.  The spec's construction
    [new(contamination = 0.1)] fails with InvalidParameterError (Python's
    [ValueError]) when [contamination] is not in (0, 0.5], and otherwise
    stores it. *)
Definition __init__ (contamination : R) : outcome COPOD :=
  if Rlt_dec 0 contamination then
    if Rle_dec contamination (1 / 2)
    then Returned (mk_COPOD contamination None None None None None None None None)
    else Raised ValueError
  else Raised ValueError.

(** Modelled from the spec: [BaseDetector._set_n_classes]
    (pyod/models/base.py), the class-count bookkeeping call made once
    during [fit], with no observable effect on scoring: it touches none of
    the attributes modelled here. *)
Definition _set_n_classes : M unit := ret tt.

(** [COPOD.ecdf]: the empirical CDF of a sample evaluated on the sample
    itself. *)
Definition ecdf (X : list R) : outcome (list R) :=
  obind (ECDF X) (fun f => Returned (map (step_call f) X)).

(** The loop body [self.labels_[i] = 1 if self.decision_scores_[i] >=
    self.threshold_ else 0]. *)
Definition label_step (i : nat) : M unit :=
  scores <- getattr decision_scores_ ;;
  t <- getattr threshold_ ;;
  labels <- getattr labels_ ;;
  modify (set_labels_ (set_item labels i (if Rge_dec (nth i scores 0) t then 1 else 0))).

(** [COPOD.decision_function]. *)
Definition decision_function (X : ndarray) : M (list R) :=
  train <- gets X_train ;;
  let original_size := shape0 X in
  X <- match train with
       | Some T => lift (concatenate T X)
       | None => ret X
       end ;;
  e_l <- lift (apply_along_axis ecdf X) ;;
  modify (set_U_l (arr_map (fun p => -1 * ln p) e_l)) ;;
  e_r <- lift (apply_along_axis ecdf (arr_map Ropp X)) ;;
  modify (set_U_r (arr_map (fun p => -1 * ln p) e_r)) ;;
  let skewness := map sign (apply_along_axis_scalar skew X) in
  ul <- getattr U_l ;;
  ur <- getattr U_r ;;
  modify (set_U_skew
            (arr_zip Rplus
               (arr_broadcast Rmult (arr_map (fun u => u * -1) ul)
                              (map (fun s => sign (s - 1)) skewness))
               (arr_broadcast Rmult ur (map (fun s => sign (s + 1)) skewness)))) ;;
  us <- getattr U_skew ;;
  modify (set_O (arr_zip Rmax us (arr_map (fun u => u / 2) (arr_zip Rplus ul ur)))) ;;
  o <- getattr O ;;
  train <- gets X_train ;;
  modify (set_decision_scores_
            match train with
            | Some _ => slice_from_neg original_size (sum_axis1 o)
            | None => sum_axis1 o
            end) ;;
  scores <- getattr decision_scores_ ;;
  c <- gets contamination ;;
  t <- lift (percentile scores ((1 - c) * 100)) ;;
  modify (set_threshold_ t) ;;
  modify (set_labels_ (zeros (length scores))) ;;
  for_each (seq 0 (length scores)) label_step ;;
  getattr decision_scores_.

(** [COPOD.fit]. *)
Definition fit (X : ndarray) : M unit :=
  X <- lift (check_array X) ;;
  _set_n_classes ;;
  modify (set_X_train X) ;;
  _ <- decision_function X ;;
  ret tt.

(** [COPOD.explain_outlier], without the matplotlib calls: what remains is
    every read of the instance and every indexing, maximum or quantile
    call, in source order, and the returned triple.  The first [plt.plot]
    evaluates [self.O.iloc[ind]]; the loop evaluates one quantile row per
    cutoff; [plt.ylim] and [plt.yticks] each evaluate
    [int(self.O.max().max())]; the title needs [self.labels_[ind]]; the
    return expression evaluates [self.O.iloc[ind]], [cutoffs[0]] and
    [cutoffs[1]] with their quantile rows. *)
Definition explain_outlier (ind : Z) (cutoffs : option (list R))
  : M (list R * list R * list R) :=
  c <- gets contamination ;;
  let cutoffs := match cutoffs with
                 | None => [1 - c; 99 / 100]
                 | Some l => l
                 end in
  o <- getattr O ;;
  _ <- lift (getitem (rows o) ind) ;;
  for_each cutoffs (fun i => o <- getattr O ;;
                             _ <- lift (quantile_axis0 o i) ;;
                             ret tt) ;;
  o <- getattr O ;;
  _ <- lift (int_max_max o) ;;
  o <- getattr O ;;
  _ <- lift (int_max_max o) ;;
  labels <- getattr labels_ ;;
  _ <- lift (getitem labels ind) ;;
  o <- getattr O ;;
  row <- lift (getitem (rows o) ind) ;;
  c0 <- lift (getitem cutoffs 0) ;;
  q0 <- lift (quantile_axis0 o c0) ;;
  c1 <- lift (getitem cutoffs 1) ;;
  q1 <- lift (quantile_axis0 o c1) ;;
  ret (row, q0, q1).

(* ================================================================== *)
(** * Vocabulary of the specification *)

(** [count(values <= x)] over a sample. *)
Definition count_le (l : list R) (x : R) : nat :=
  length (filter (fun y => if Rle_dec y x then true else false) l).

(** The empirical CDF as the specification words it: the fraction of the
    sample that is [<= x], ties included. *)
Definition ecdf_at (col : list R) (x : R) : R :=
  INR (count_le col x) / INR (length col).

(** Per-cell quantities of the scoring pipeline, as functions of a feature
    column and of one value of that column: the left and right tail
    surprises, the sign of the column's skewness, the skew-adjusted value
    and the outlier contribution. *)
Definition left_tail (col : list R) (x : R) : R :=
  -1 * ln (ecdf_at col x).

Definition right_tail (col : list R) (x : R) : R :=
  -1 * ln (ecdf_at (map Ropp col) (- x)).

Definition skew_sign (col : list R) : R := sign (skew col).

Definition skew_cell (col : list R) (x : R) : R :=
  left_tail col x * -1 * sign (skew_sign col - 1)
  + right_tail col x * sign (skew_sign col + 1).

Definition outlier_cell (col : list R) (x : R) : R :=
  Rmax (skew_cell col x) ((left_tail col x + right_tail col x) / 2).

(** The table obtained from [X] by replacing every cell with a function of
    its column and its value. *)
Definition tabulate (g : list R -> R -> R) (X : ndarray) : ndarray :=
  mk_array (shape1 X)
           (map (fun r => map (fun j => g (column j X) (nth j r 0)) (seq 0 (shape1 X)))
                (rows X)).

(** The decision score of a row [r] scored within the table [X]. *)
Definition row_score (X : ndarray) (r : list R) : R :=
  sum (map (fun j => outlier_cell (column j X) (nth j r 0)) (seq 0 (shape1 X))).

(** Threshold and labels derived from a score array. *)
Definition threshold_of (c : R) (scores : list R) : R :=
  quantile_linear scores ((1 - c) * 100 / 100).

Definition labels_of (t : R) (scores : list R) : list R :=
  map (fun sc => if Rge_dec sc t then 1 else 0) scores.

(** The instance after a scoring pass over the table [Xc] that keeps the
    score array [scores]. *)
Definition scored (s : COPOD) (Xc : ndarray) (scores : list R) : COPOD :=
  mk_COPOD (contamination s) (X_train s)
           (Some (tabulate left_tail Xc)) (Some (tabulate right_tail Xc))
           (Some (tabulate skew_cell Xc)) (Some (tabulate outlier_cell Xc))
           (Some scores)
           (Some (threshold_of (contamination s) scores))
           (Some (labels_of (threshold_of (contamination s) scores) scores)).

(** The instance when such a pass stops at the percentile call: the
    tables and the score array are new, threshold and labels are still the
    old ones. *)
Definition scored_before_threshold (s : COPOD) (Xc : ndarray) (scores : list R) : COPOD :=
  mk_COPOD (contamination s) (X_train s)
           (Some (tabulate left_tail Xc)) (Some (tabulate right_tail Xc))
           (Some (tabulate skew_cell Xc)) (Some (tabulate outlier_cell Xc))
           (Some scores) (threshold_ s) (labels_ s).

(** The table a scoring pass runs over: the stored training rows followed
    by the query rows, or the query alone on an unfitted instance. *)
Definition combined (s : COPOD) (X : ndarray) : outcome ndarray :=
  match X_train s with
  | Some T => concatenate T X
  | None => Returned X
  end.

(** The score array a pass over [Xc] keeps for the query [X]. *)
Definition kept_scores (s : COPOD) (X Xc : ndarray) : list R :=
  match X_train s with
  | Some _ => slice_from_neg (shape0 X) (map (row_score Xc) (rows Xc))
  | None => map (row_score Xc) (rows Xc)
  end.

(** A well-formed two-dimensional table: rectangular, with at least one
    row and one column. *)
Definition table (T : ndarray) : Prop :=
  well_formed T /\ (0 < shape0 T)%nat /\ (0 < shape1 T)%nat.

(** All entries of an array satisfy [P]. *)
Definition entries (P : R -> Prop) (X : ndarray) : Prop :=
  Forall (Forall P) (rows X).

(** What holds of the tail tables after a pass over [Xc]: both column-wise
    ECDF calls returned tables of values in (0, 1], [U_l] and [U_r] are
    their negated logarithms, and no entry of either is negative. *)
Definition tail_tables_ok (s' : COPOD) (Xc : ndarray) : Prop :=
  exists el er,
    apply_along_axis ecdf Xc = Returned el /\
    apply_along_axis ecdf (arr_map Ropp Xc) = Returned er /\
    entries (fun p => 0 < p <= 1) el /\
    entries (fun p => 0 < p <= 1) er /\
    U_l s' = Some (arr_map (fun p => -1 * ln p) el) /\
    U_r s' = Some (arr_map (fun p => -1 * ln p) er) /\
    entries (fun u => 0 <= u) (arr_map (fun p => -1 * ln p) el) /\
    entries (fun u => 0 <= u) (arr_map (fun p => -1 * ln p) er).



(** Sample inputs: a two-row, one-column table, a three-row one, and a
    query without rows for a one-column detector. *)
Definition T2 : ndarray := mk_array 1 [[1]; [2]].
Definition T3 : ndarray := mk_array 1 [[1]; [2]; [3]].
Definition Q0 : ndarray := mk_array 1 [].

(** The one-column table of the specification's scenario, three close
    values and a far one. *)
Definition T4 : ndarray := mk_array 1 [[1]; [2]; [3]; [100]].

(** The cutoff levels [explain_outlier] works with. *)
Definition resolve_cutoffs (s : COPOD) (cutoffs : option (list R)) : list R :=
  match cutoffs with
  | None => [1 - contamination s; 99 / 100]
  | Some l => l
  end.

(** A method that leaves the instance as it found it, whatever it
    returns or raises. *)
Definition read_only {A} (c : M A) : Prop := forall s, fst (c s) = s.

(** The contamination levels the constructor accepts. *)
Definition valid_contamination (s : COPOD) : Prop :=
  0 < contamination s <= 1 / 2.

(** A freshly constructed, never fitted detector. *)
Definition fresh (c : R) : COPOD :=
  mk_COPOD c None None None None None None None None.

(** Threshold and labels agree with the current score array. *)
Definition threshold_labels_ok (s : COPOD) : Prop :=
  exists scores t labels,
    decision_scores_ s = Some scores /\
    threshold_ s = Some t /\
    labels_ s = Some labels /\
    percentile scores ((1 - contamination s) * 100) = Returned t /\
    length labels = length scores /\
    forall i, (i < length scores)%nat ->
              nth i labels 0 = if Rge_dec (nth i scores 0) t then 1 else 0.

(** The same, for an instance that may not have been scored yet. *)
Definition scores_consistent (s : COPOD) : Prop :=
  decision_scores_ s = None \/ threshold_labels_ok s.

(** A one-dimensional array that never decreases from one entry to the
    next. *)
Definition non_decreasing (l : list R) : Prop :=
  forall i j, (i <= j < length l)%nat -> nth i l 0 <= nth j l 0.

Definition strictly_increasing (l : list R) : Prop :=
  forall i j, (i < j < length l)%nat -> nth i l 0 < nth j l 0.

(** Reordering by a list of positions: entry [k] of the result is entry
    [nth k p] of the input. *)
Definition reorder {A} (d : A) (p : list nat) (l : list A) : list A :=
  map (fun i => nth i l d) p.

Definition reorder_rows (p : list nat) (X : ndarray) : ndarray :=
  mk_array (shape1 X) (reorder [] p (rows X)).


(** What [explain_outlier] returns or raises, as a function of the
    instance: the row lookup, one quantile row per cutoff, the maximum for
    the axis limits, the label lookup, then the triple. *)
Definition explain_result (s : COPOD) (ind : Z) (cutoffs : option (list R))
  : outcome (list R * list R * list R) :=
  let cs := resolve_cutoffs s cutoffs in
  match O s with
  | None => Raised AttributeError
  | Some o =>
      obind (getitem (rows o) ind) (fun row =>
      obind (traverse (quantile_axis0 o) cs) (fun _ =>
      obind (int_max_max o) (fun _ =>
      match labels_ s with
      | None => Raised AttributeError
      | Some labels =>
          obind (getitem labels ind) (fun _ =>
          obind (getitem cs 0) (fun c0 =>
          obind (quantile_axis0 o c0) (fun q0 =>
          obind (getitem cs 1) (fun c1 =>
          obind (quantile_axis0 o c1) (fun q1 =>
          Returned (row, q0, q1))))))
      end)))
  end.

(** More sample inputs: a one-row table of two columns and a one-row query
    of one column. *)
Definition W2 : ndarray := mk_array 2 [[1; 2]].
Definition Q1 : ndarray := mk_array 1 [[5]].

(** A table whose two rows are the same. *)
Definition K2 : ndarray := mk_array 2 [[7; 3]; [7; 3]].

(* ================================================================== *)
(** * Binary64: the skewness as the source computes it *)

(** The sign of a column's skewness decides which tail the whole column
    contributes, so it is the one step of the scoring pass where an error
    in the last digit of a double changes a score by more than its last
    digits: on a column that is symmetric about its mean the third moment
    computed in doubles is a rounding residue, and its sign depends on the
    order and on the number of the summands.  The definitions of this
    part follow [np.sign(np.apply_along_axis(skew, 0, X))] operation by
    operation in IEEE binary64, on tables whose entries are doubles; the
    empirical CDF levels, the logarithms and the sums of the pass are still
    read over the reals, where they are right up to their last digits. *)

(** A two-dimensional array of doubles. *)
Record ndarray64 : Type := mk_array64 { shape1_64 : nat; rows64 : list (list float) }.

Definition shape0_64 (X : ndarray64) : nat := length (rows64 X).

Definition column64 (j : nat) (X : ndarray64) : list float :=
  map (fun r => nth j r 0%float) (rows64 X).

Definition columns64 (X : ndarray64) : list (list float) :=
  map (fun j => column64 j X) (seq 0 (shape1_64 X)).

(** [np.concatenate((A, B), axis=0)]. *)
Definition concatenate64 (A B : ndarray64) : outcome ndarray64 :=
  if Nat.eqb (shape1_64 A) (shape1_64 B)
  then Returned (mk_array64 (shape1_64 A) (rows64 A ++ rows64 B))
  else Raised ValueError.

Definition reorder_rows64 (p : list nat) (X : ndarray64) : ndarray64 :=
  mk_array64 (shape1_64 X) (reorder [] p (rows64 X)).


(** The real number a finite double stands for: sign, integer mantissa
    and binary exponent.  Comparisons and negation of finite doubles are
    exact, so the order statistics of a table of doubles are those of its
    values. *)
Definition value (x : float) : R :=
  match Prim2SF x with
  | S754_finite s m e => (if s then -1 else 1) * (IZR (Z.pos m) * powerRZ 2 e)
  | _ => 0
  end.

Definition reals (X : ndarray64) : ndarray :=
  mk_array (shape1_64 X) (map (map value) (rows64 X)).

(** No entry is NaN or infinite. *)
Definition isfinite64 (X : ndarray64) : bool :=
  forallb (forallb PrimFloat.is_finite) (rows64 X).

(** The conversion of an array length to a double. *)
Definition float_of_nat (n : nat) : float :=
  PrimFloat.of_uint63 (Uint63.of_Z (Z.of_nat n)).

(** numpy's summation of a one-dimensional array of doubles
    ([np.add.reduce], used by [np.mean]) is pairwise: fewer than 8 elements
    are added one after the other starting from 0; up to 128 elements are
    added into eight running sums [r[0..7]], element [i] going to
    [r[i mod 8]], which are combined as
    [((r0 + r1) + (r2 + r3)) + ((r4 + r5) + (r6 + r7))] before the
    [n mod 8] last elements are added one after the other; a longer array
    is split at [n2 = n / 2 - (n / 2) mod 8] and the sums of the two parts
    are added.  [accumulate8] adds [blocks] blocks of eight elements to the
    running sums and returns them with the elements that are left. *)
Fixpoint accumulate8 (blocks : nat) (r a : list float) : list float * list float :=
  match blocks with
  | 0%nat => (r, a)
  | S b => accumulate8 b (zip_with PrimFloat.add r (firstn 8 a)) (skipn 8 a)
  end.

Definition block_sum (a : list float) : float :=
  let '(r, rest) := accumulate8 (length a / 8 - 1) (firstn 8 a) (skipn 8 a) in
  let r (k : nat) := nth k r 0%float in
  fold_left PrimFloat.add rest
    (((r 0%nat + r 1%nat) + (r 2%nat + r 3%nat))
     + ((r 4%nat + r 5%nat) + (r 6%nat + r 7%nat)))%float.

(** [fuel] bounds the depth of the splitting; the length of the array is
    always enough (lemma [pairwise_sum_fuel]). *)
Fixpoint pairwise_sum (fuel : nat) (a : list float) : float :=
  let n := length a in
  if (n <? 8)%nat then fold_left PrimFloat.add a 0%float
  else if (n <=? 128)%nat then block_sum a
  else match fuel with
       | 0%nat => 0%float
       | S fuel' =>
           let n2 := (n / 2 - (n / 2) mod 8)%nat in
           (pairwise_sum fuel' (firstn n2 a) + pairwise_sum fuel' (skipn n2 a))%float
       end.

(** [np.add.reduce(a)]: the pairwise sum is added to the identity 0 the
    result starts from. *)
Definition sum64 (a : list float) : float :=
  (0 + pairwise_sum (length a) a)%float.

(** [np.mean(a)]: the sum divided by the length. *)
Definition mean64 (a : list float) : float :=
  (sum64 a / float_of_nat (length a))%float.

(** [scipy.stats.moment(a, k)] in doubles: [np.mean(s)] where [s] is the
    [k]-th power of [a_zero_mean = a - np.mean(a)], formed by repeated
    squaring: [s = s**2], followed by [s *= a_zero_mean] at an odd
    exponent, along the binary digits of [k].  For [k = 2] this is
    [a_zero_mean**2] and for [k = 3] it is [a_zero_mean**2 * a_zero_mean].
    The first moment is [0] by definition. *)
Fixpoint power64 (k : positive) (d : float) : float :=
  match k with
  | xH => d
  | xO q => let s := power64 q d in (s * s)%float
  | xI q => let s := power64 q d in ((s * s) * d)%float
  end.

Definition moment64 (k : positive) (a : list float) : float :=
  match k with
  | xH => 0%float
  | _ => let a_zero_mean := map (fun x => (x - mean64 a)%float) a in
         mean64 (map (power64 k) a_zero_mean)
  end.

(** [scipy.stats.skew(a)] (biased) in doubles: [0] where [m2 == 0] and
    [m3 / m2**1.5] elsewhere.  The power is the C library's [pow], which
    is not specified to the last digit; it is read as [m2 * sqrt(m2)], the
    same positive number up to its last digits.  Only the sign of the
    quotient is used below. *)
Definition skew64 (a : list float) : float :=
  let m2 := moment64 2 a in
  let m3 := moment64 3 a in
  if (m2 =? 0)%float then 0%float else (m3 / (m2 * PrimFloat.sqrt m2))%float.

(** [np.sign] of a double: 1, -1 or 0, and NaN ([None]) for NaN. *)
Definition sign64 (x : float) : option R :=
  if (0 <? x)%float then Some 1
  else if (x <? 0)%float then Some (-1)
  else if (x =? 0)%float then Some 0
  else None.

(** [np.sign(np.apply_along_axis(skew, 0, X))]. *)
Definition skewness64 (X : ndarray64) : list (option R) :=
  map sign64 (map skew64 (columns64 X)).

(** Arithmetic on entries that may be NaN ([None]): a product or a sum
    with NaN is NaN, [np.maximum] returns NaN when its first argument is
    NaN, and [DataFrame.sum(axis=1)] skips NaN entries ([skipna=True] is
    its default). *)
Definition nan_mul (u : R) (s : option R) : option R := option_map (Rmult u) s.

Definition nan_add (a b : option R) : option R :=
  match a, b with
  | Some x, Some y => Some (x + y)
  | _, _ => None
  end.

Definition nan_max (a : option R) (b : R) : option R :=
  option_map (fun x => Rmax x b) a.

Definition nansum (l : list (option R)) : R :=
  sum (map (fun c => match c with Some x => x | None => 0 end) l).

(** [COPOD.decision_function] on a table of finite doubles, as far as the
    returned score array goes: [train] is the [X_train] attribute, if the
    instance has one.  The steps are those of [decision_function] above,
    with the skewness signs computed in doubles; [us] is [U_skew] and [o]
    is [O], whose column [j] is NaN when the skewness of column [j] is.
    The percentile and label steps that follow in the source do not change
    the score array, and they return for every contamination level the
    constructor accepts. *)
Definition decision_function64 (train : option ndarray64) (X : ndarray64)
  : outcome (list R) :=
  let original_size := shape0_64 X in
  obind match train with
        | Some T => concatenate64 T X
        | None => Returned X
        end (fun X =>
  obind (apply_along_axis ecdf (reals X)) (fun e_l =>
  let ul := arr_map (fun p => -1 * ln p) e_l in
  obind (apply_along_axis ecdf (arr_map Ropp (reals X))) (fun e_r =>
  let ur := arr_map (fun p => -1 * ln p) e_r in
  let skewness := skewness64 X in
  let us := zip_with (zip_with nan_add)
              (map (fun r => zip_with nan_mul r
                                (map (option_map (fun s => sign (s - 1))) skewness))
                   (rows (arr_map (fun u => u * -1) ul)))
              (map (fun r => zip_with nan_mul r
                                (map (option_map (fun s => sign (s + 1))) skewness))
                   (rows ur)) in
  let o := zip_with (zip_with nan_max) us
                    (rows (arr_map (fun u => u / 2) (arr_zip Rplus ul ur))) in
  Returned match train with
           | Some _ => slice_from_neg original_size (map nansum o)
           | None => map nansum o
           end))).



(** What a cell contributes to the score of its row, as a function of the
    skewness sign of its column ([None] for NaN), of the column and of
    the cell's value. *)
Definition contribution (sg : option R) (col : list R) (x : R) : R :=
  match sg with
  | Some s => Rmax (left_tail col x * -1 * sign (s - 1) + right_tail col x * sign (s + 1))
                   ((left_tail col x + right_tail col x) / 2)
  | None => 0
  end.

Definition row_score64 (sk : list (option R)) (X : ndarray) (r : list R) : R :=
  sum (map (fun j => contribution (nth j sk None) (column j X) (nth j r 0))
           (seq 0 (shape1 X))).

(** A well-formed table of doubles: rectangular, with at least one row
    and one column, and finite entries. *)
Definition table64 (T : ndarray64) : Prop :=
  Forall (fun r => length r = shape1_64 T) (rows64 T) /\
  (0 < shape0_64 T)%nat /\ (0 < shape1_64 T)%nat /\
  isfinite64 T = true.


Definition T01 : ndarray64 :=
  mk_array64 1 [[0x1.999999999999ap-4%float]; [0x1.999999999999ap-3%float];
                [0x1.3333333333333p-2%float]].

Definition T124 : ndarray64 := mk_array64 1 [[1%float]; [2%float]; [4%float]].

(* ================================================================== *)
(** * Proof tools *)

(** Proof tools: the hint database for read-only methods, and the
    evaluation of an empirical CDF on a sample of literals. *)
Create HintDb ro.

Ltac count_sample :=
  unfold ecdf_at, count_le; simpl;
  repeat match goal with
         | |- context [Rle_dec ?a ?b] => destruct (Rle_dec a b); try lra
         end;
  simpl; lra.

(* ================================================================== *)
(** * Lists, sums and counting *)

Lemma map_seq_nth {A B} (f : A -> B) (d : A) (l : list A) :
  map (fun i => f (nth i l d)) (seq 0 (length l)) = map f l.
Proof.
  induction l as [|a l IH]; simpl; [reflexivity|].
  f_equal. rewrite <- seq_shift, map_map. exact IH.
Qed.

Lemma nth_map_seq {B} (f : nat -> B) (d : B) (n i : nat) :
  (i < n)%nat -> nth i (map f (seq 0 n)) d = f i.
Proof.
  intros Hi. rewrite nth_indep with (d' := f 0%nat) by (rewrite length_map, length_seq; lia).
  now rewrite map_nth, seq_nth.
Qed.

Lemma zip_with_map {A B C D} (f : B -> C -> D) (g : A -> B) (h : A -> C) (l : list A) :
  zip_with f (map g l) (map h l) = map (fun a => f (g a) (h a)) l.
Proof. induction l; simpl; congruence. Qed.


Lemma count_le_cons a l x :
  count_le (a :: l) x = ((if Rle_dec a x then 1 else 0) + count_le l x)%nat.
Proof. unfold count_le; simpl. now destruct (Rle_dec a x). Qed.

Lemma count_le_perm l l' x :
  Permutation l l' -> count_le l x = count_le l' x.
Proof.
  induction 1; rewrite ?count_le_cons in *; try lia.
Qed.

Lemma count_le_length l x : (count_le l x <= length l)%nat.
Proof. unfold count_le. apply filter_length_le. Qed.

Lemma count_le_In l x : In x l -> (1 <= count_le l x)%nat.
Proof.
  induction l as [|a l IH]; simpl; [tauto|].
  rewrite count_le_cons. intros [->|H].
  - destruct (Rle_dec x x); [lia | lra].
  - specialize (IH H). lia.
Qed.

Lemma count_le_mono l x y : x <= y -> (count_le l x <= count_le l y)%nat.
Proof.
  intros Hxy. induction l as [|a l IH]; [reflexivity|].
  rewrite !count_le_cons.
  destruct (Rle_dec a x), (Rle_dec a y); try lia; lra.
Qed.

Lemma sum_app l1 l2 : sum (l1 ++ l2) = sum l1 + sum l2.
Proof. unfold sum. induction l1; simpl; lra. Qed.

Lemma sum_perm l l' : Permutation l l' -> sum l = sum l'.
Proof. unfold sum. induction 1; simpl; lra. Qed.

(* ================================================================== *)
(** * Sorting and searching *)

Lemma insert_perm x l : Permutation (x :: l) (insert x l).
Proof.
  induction l as [|y l IH]; simpl; [reflexivity|].
  destruct (Rle_dec x y); [reflexivity|].
  rewrite perm_swap. now constructor.
Qed.

Lemma sort_perm l : Permutation l (sort l).
Proof.
  induction l as [|x l IH]; simpl; [constructor|].
  rewrite <- insert_perm. now constructor.
Qed.

Lemma sort_length l : length (sort l) = length l.
Proof. symmetry. apply Permutation_length, sort_perm. Qed.

Lemma insert_sorted x l :
  StronglySorted Rle l -> StronglySorted Rle (insert x l).
Proof.
  induction 1 as [|y l Hs IH Hall]; simpl.
  - repeat constructor.
  - destruct (Rle_dec x y) as [Hxy|Hxy].
    + constructor; [now constructor|].
      constructor; [exact Hxy|].
      eapply Forall_impl; [|exact Hall]. intros; simpl in *; lra.
    + constructor; [exact IH|].
      eapply Permutation_Forall; [apply insert_perm|].
      constructor; [lra | exact Hall].
Qed.

Lemma sort_sorted l : StronglySorted Rle (sort l).
Proof.
  induction l; simpl; [constructor | now apply insert_sorted].
Qed.

Lemma count_le_all_above l v :
  Forall (fun y => v < y) l -> count_le l v = 0%nat.
Proof.
  induction 1 as [|y l Hy _ IH]; [reflexivity|].
  rewrite count_le_cons, IH. destruct (Rle_dec y v); [lra | reflexivity].
Qed.

Lemma searchsorted_right_count a v :
  StronglySorted Rle a -> searchsorted_right a v = count_le a v.
Proof.
  induction 1 as [|x a Hs IH Hall]; [reflexivity|].
  simpl. rewrite count_le_cons.
  destruct (Rle_dec x v) as [Hx|Hx].
  - now rewrite IH.
  - rewrite count_le_all_above; [reflexivity|].
    eapply Forall_impl; [|exact Hall]. intros; simpl in *; lra.
Qed.

Lemma linspace_length a b n : length (linspace a b n) = n.
Proof. unfold linspace. now rewrite length_map, length_seq. Qed.

Lemma linspace_unit_nth n c :
  (1 <= c <= n)%nat ->
  nth (c - 1) (linspace (1 / INR n) 1 n) 0 = INR c / INR n.
Proof.
  intros Hc. unfold linspace.
  assert (Hn : INR n <> 0) by (apply not_0_INR; lia).
  rewrite nth_map_seq by lia.
  destruct (Nat.ltb_spec 1 n) as [H1|H1], (Nat.eqb_spec (c - 1) (n - 1)) as [He|He]; simpl.
  - replace c with n by lia. now field.
  - assert (Hn1 : INR (n - 1) <> 0) by (apply not_0_INR; lia).
    replace (INR c) with (INR (c - 1) + 1).
    2:{ rewrite minus_INR by lia. simpl. lra. }
    rewrite (minus_INR n 1) in * by lia. simpl in *. field. split; lra.
  - assert (n = 1%nat) by lia. assert (c = 1%nat) by lia. subst. simpl. lra.
  - lia.
Qed.

(* ================================================================== *)
(** * The empirical CDF *)

Lemma step_call_ECDF col x :
  In x col ->
  step_call (mk_step (sort col) (0 :: linspace (1 / INR (length col)) 1 (length col))) x
  = ecdf_at col x.
Proof.
  intros Hin. unfold step_call, ecdf_at; simpl sf_x; simpl sf_y.
  rewrite searchsorted_right_count by apply sort_sorted.
  rewrite <- (count_le_perm _ _ x (sort_perm col)).
  pose proof (count_le_In _ _ Hin) as H1.
  pose proof (count_le_length col x) as H2.
  replace (1 + count_le col x - 1)%nat with (S (count_le col x - 1)) by lia.
  simpl nth. apply linspace_unit_nth. lia.
Qed.

(** On a non-empty sample the source's [ecdf] returns, and what it
    returns is the specification's fraction at every sample value. *)
Lemma ecdf_refines col :
  col <> [] -> ecdf col = Returned (map (ecdf_at col) col).
Proof.
  intros Hne. unfold ecdf, ECDF.
  destruct (length col) as [|n] eqn:Hlen.
  - destruct col; [congruence | discriminate].
  - unfold obind. f_equal. apply map_ext_in. intros x Hin.
    rewrite <- Hlen. now apply step_call_ECDF.
Qed.

Lemma ecdf_empty : ecdf [] = Raised ZeroDivisionError.
Proof. reflexivity. Qed.

Lemma ecdf_at_range col x :
  In x col -> 0 < ecdf_at col x <= 1.
Proof.
  intros Hin. unfold ecdf_at.
  pose proof (count_le_In _ _ Hin) as H1.
  pose proof (count_le_length col x) as H2.
  assert (Hn : 0 < INR (length col)) by (apply lt_0_INR; lia).
  assert (Hc : 0 < INR (count_le col x)) by (apply lt_0_INR; lia).
  assert (Hle : INR (count_le col x) <= INR (length col)) by (apply le_INR; lia).
  split.
  - now apply Rdiv_lt_0_compat.
  - apply Rmult_le_reg_r with (r := INR (length col)); [exact Hn|].
    unfold Rdiv. rewrite Rmult_assoc, Rinv_l by lra. lra.
Qed.

Lemma neg_ln_nonneg p : 0 < p <= 1 -> 0 <= -1 * ln p.
Proof.
  intros [Hp [Hlt| ->]].
  - pose proof (ln_increasing _ _ Hp Hlt) as H. rewrite ln_1 in H. lra.
  - rewrite ln_1. lra.
Qed.

Lemma left_tail_nonneg col x : In x col -> 0 <= left_tail col x.
Proof. intros H. apply neg_ln_nonneg, ecdf_at_range, H. Qed.

Lemma right_tail_nonneg col x : In x col -> 0 <= right_tail col x.
Proof.
  intros H. apply neg_ln_nonneg, ecdf_at_range.
  apply in_map_iff. now exists x.
Qed.

(* ================================================================== *)
(** * Arrays: columns, column-wise application, elementwise operations *)

Lemma nth_map_lt {A B} (f : A -> B) (l : list A) (d : B) (d' : A) (i : nat) :
  (i < length l)%nat -> nth i (map f l) d = f (nth i l d').
Proof.
  intros Hi. rewrite nth_indep with (d' := f d') by (now rewrite length_map).
  apply map_nth.
Qed.

Lemma nth_map_Ropp (r : list R) (j : nat) :
  nth j (map Ropp r) 0 = - nth j r 0.
Proof. rewrite <- Ropp_0 at 1. apply map_nth. Qed.

Lemma column_length j X : length (column j X) = shape0 X.
Proof. apply length_map. Qed.

Lemma column_nth j X i :
  (i < shape0 X)%nat -> nth i (column j X) 0 = nth j (nth i (rows X) []) 0.
Proof.
  intros Hi. unfold column.
  exact (nth_map_lt (fun r => nth j r 0) (rows X) 0 [] i Hi).
Qed.

Lemma column_In j X r : In r (rows X) -> In (nth j r 0) (column j X).
Proof. intros H. unfold column. apply in_map_iff. now exists r. Qed.

Lemma column_arr_map_Ropp j X :
  column j (arr_map Ropp X) = map Ropp (column j X).
Proof.
  unfold column, arr_map; simpl. rewrite !map_map.
  apply map_ext. intros r. apply nth_map_Ropp.
Qed.


Lemma columns_length X : length (columns X) = shape1 X.
Proof. unfold columns. now rewrite length_map, length_seq. Qed.

Lemma traverse_ecdf cols :
  Forall (fun c => c <> []) cols ->
  traverse ecdf cols = Returned (map (fun c => map (ecdf_at c) c) cols).
Proof.
  induction 1 as [|c cols Hc _ IH]; [reflexivity|].
  simpl. rewrite (ecdf_refines c Hc), IH. reflexivity.
Qed.

Lemma columns_nonempty X :
  (0 < shape0 X)%nat -> Forall (fun c => c <> []) (columns X).
Proof.
  intros Hn. apply Forall_forall. intros c Hc.
  apply in_map_iff in Hc. destruct Hc as [j [<- _]].
  intros E. apply (f_equal (@length R)) in E.
  rewrite column_length in E. simpl in E. lia.
Qed.

(** Column-wise [ecdf] over a table with at least one row and one column
    returns the table of empirical-CDF fractions. *)
Lemma apply_along_axis_ecdf X :
  (0 < shape0 X)%nat -> (0 < shape1 X)%nat ->
  apply_along_axis ecdf X = Returned (tabulate ecdf_at X).
Proof.
  intros Hn Hd. unfold apply_along_axis.
  destruct (shape1 X) as [|d] eqn:Hd'; [lia|].
  rewrite traverse_ecdf by (now apply columns_nonempty).
  unfold obind, of_columns, tabulate. f_equal.
  rewrite length_map, columns_length, Hd'.
  f_equal.
  assert (Hhd : length (hd [] (map (fun c => map (ecdf_at c) c) (columns X))) = shape0 X).
  { unfold columns. rewrite Hd'. simpl. now rewrite length_map, column_length. }
  rewrite Hhd. unfold shape0.
  rewrite <- (map_seq_nth (fun r => map (fun j => ecdf_at (column j X) (nth j r 0)) (seq 0 (S d))) []).
  apply map_ext_in. intros i Hi. apply in_seq in Hi.
  unfold columns. rewrite Hd', !map_map.
  apply map_ext. intros j.
  rewrite nth_map_lt with (d' := 0) by (rewrite column_length; unfold shape0; lia).
  f_equal. apply column_nth. unfold shape0; lia.
Qed.

Lemma apply_along_axis_no_column f X :
  shape1 X = 0%nat -> apply_along_axis f X = Raised ValueError.
Proof. intros H. unfold apply_along_axis. now rewrite H. Qed.

Lemma apply_along_axis_ecdf_no_row X :
  shape0 X = 0%nat -> (0 < shape1 X)%nat ->
  apply_along_axis ecdf X = Raised ZeroDivisionError.
Proof.
  intros Hn Hd. unfold apply_along_axis, columns.
  destruct (shape1 X) as [|d]; [lia|].
  assert (Hc : column 0 X = []).
  { apply length_zero_iff_nil. now rewrite column_length. }
  simpl. rewrite Hc. reflexivity.
Qed.

Lemma arr_map_tabulate f g X :
  arr_map f (tabulate g X) = tabulate (fun c x => f (g c x)) X.
Proof.
  unfold arr_map, tabulate; simpl. f_equal.
  rewrite map_map. apply map_ext. intros r. apply map_map.
Qed.

Lemma arr_zip_tabulate f g h X :
  arr_zip f (tabulate g X) (tabulate h X) = tabulate (fun c x => f (g c x) (h c x)) X.
Proof.
  unfold arr_zip, tabulate; simpl. f_equal.
  rewrite zip_with_map. apply map_ext. intros r. apply zip_with_map.
Qed.

Lemma arr_broadcast_tabulate f g v X :
  arr_broadcast f (tabulate g X) (map v (columns X))
  = tabulate (fun c x => f (g c x) (v c)) X.
Proof.
  unfold arr_broadcast, tabulate, columns; simpl. f_equal.
  rewrite map_map. apply map_ext. intros r.
  rewrite map_map. apply zip_with_map.
Qed.

Lemma tabulate_arr_map_Ropp g X :
  tabulate g (arr_map Ropp X) = tabulate (fun c x => g (map Ropp c) (- x)) X.
Proof.
  unfold tabulate. simpl shape1. f_equal.
  unfold arr_map at 2. simpl rows. rewrite map_map.
  apply map_ext. intros r. apply map_ext. intros j.
  now rewrite column_arr_map_Ropp, nth_map_Ropp.
Qed.

Lemma tabulate_ext g h X :
  (forall c x, g c x = h c x) -> tabulate g X = tabulate h X.
Proof.
  intros E. unfold tabulate. f_equal.
  apply map_ext. intros r. apply map_ext. intros j. apply E.
Qed.

Lemma shape0_tabulate g X : shape0 (tabulate g X) = shape0 X.
Proof. unfold shape0, tabulate; simpl. apply length_map. Qed.


Lemma sum_axis1_tabulate X :
  sum_axis1 (tabulate outlier_cell X) = map (row_score X) (rows X).
Proof. unfold sum_axis1, tabulate; simpl. now rewrite map_map. Qed.

(* ================================================================== *)
(** * Running methods *)

Lemma bind_run {A B} (c : M A) (k : A -> M B) s s' a :
  c s = (s', Returned a) -> bind c k s = k a s'.
Proof. intros H. unfold bind. now rewrite H. Qed.

Lemma bind_raise {A B} (c : M A) (k : A -> M B) s s' e :
  c s = (s', Raised e) -> bind c k s = (s', Raised e).
Proof. intros H. unfold bind. now rewrite H. Qed.

Lemma bind_gets {A B} (f : COPOD -> A) (k : A -> M B) s :
  bind (gets f) k s = k (f s) s.
Proof. reflexivity. Qed.

Lemma bind_modify {B} (f : COPOD -> COPOD) (k : unit -> M B) s :
  bind (modify f) k s = k tt (f s).
Proof. reflexivity. Qed.

Lemma bind_lift {A B} (o : outcome A) (k : A -> M B) s a :
  o = Returned a -> bind (lift o) k s = k a s.
Proof. intros ->. reflexivity. Qed.

Lemma bind_lift_raise {A B} (o : outcome A) (k : A -> M B) s e :
  o = Raised e -> bind (lift o) k s = (s, Raised e).
Proof. intros ->. reflexivity. Qed.

Lemma bind_getattr {A B} (f : COPOD -> option A) (k : A -> M B) s v :
  f s = Some v -> bind (getattr f) k s = k v s.
Proof. intros H. unfold bind, getattr. now rewrite H. Qed.

Lemma bind_getattr_raise {A B} (f : COPOD -> option A) (k : A -> M B) s :
  f s = None -> bind (getattr f) k s = (s, Raised AttributeError).
Proof. intros H. unfold bind, getattr. now rewrite H. Qed.

(* ================================================================== *)
(** * Threshold and labels *)

Lemma percentile_valid c scores :
  0 <= c <= 1 ->
  percentile scores ((1 - c) * 100) = Returned (threshold_of c scores).
Proof.
  intros Hc. unfold percentile, threshold_of.
  destruct (Rle_dec 0 ((1 - c) * 100)); [|lra].
  destruct (Rle_dec ((1 - c) * 100) 100); [reflexivity | lra].
Qed.

Lemma set_item_app {A} (l1 l2 : list A) (x v : A) :
  set_item (l1 ++ x :: l2) (length l1) v = l1 ++ v :: l2.
Proof. induction l1; simpl; congruence. Qed.

Lemma label_fold (v : nat -> R) (k a : nat) (rest : list R) :
  length rest = k ->
  fold_left (fun l i => set_item l i (v i)) (seq a k) (map v (seq 0 a) ++ rest)
  = map v (seq 0 (a + k)).
Proof.
  revert a rest. induction k as [|k IH]; intros a rest Hlen.
  - destruct rest; [|discriminate]. simpl. now rewrite app_nil_r, Nat.add_0_r.
  - destruct rest as [|x rest]; [discriminate|]. simpl.
    pose proof (set_item_app (map v (seq 0 a)) rest x (v a)) as E.
    rewrite length_map, length_seq in E. rewrite E.
    replace (map v (seq 0 a) ++ v a :: rest) with (map v (seq 0 (S a)) ++ rest).
    2:{ rewrite seq_S, map_app, <- app_assoc. reflexivity. }
    rewrite IH by (simpl in Hlen; lia). f_equal. f_equal. lia.
Qed.

Lemma label_fold_zeros t scores :
  fold_left (fun l i => set_item l i (if Rge_dec (nth i scores 0) t then 1 else 0))
            (seq 0 (length scores)) (zeros (length scores))
  = labels_of t scores.
Proof.
  pose proof (label_fold (fun i => if Rge_dec (nth i scores 0) t then 1 else 0)
                         (length scores) 0 (zeros (length scores))) as H.
  simpl in H. rewrite H by apply repeat_length.
  unfold labels_of.
  apply (map_seq_nth (fun sc => if Rge_dec sc t then 1 else 0) 0 scores).
Qed.

(** The labelling loop: with scores and threshold in place it only
    rewrites [labels_], one index at a time. *)
Lemma label_loop s scores t idx labels :
  decision_scores_ s = Some scores ->
  threshold_ s = Some t ->
  labels_ s = Some labels ->
  for_each idx label_step s
  = (set_labels_ (fold_left (fun l i => set_item l i (if Rge_dec (nth i scores 0) t then 1 else 0))
                            idx labels) s,
     Returned tt).
Proof.
  revert s labels. induction idx as [|i idx IH]; intros s labels Hs Ht Hl.
  - simpl. unfold ret. f_equal. destruct s; simpl in *. now subst.
  - simpl for_each. unfold label_step at 1.
    erewrite bind_run.
    2:{ rewrite (bind_getattr _ _ _ _ Hs), (bind_getattr _ _ _ _ Ht),
                (bind_getattr _ _ _ _ Hl). reflexivity. }
    erewrite IH; [reflexivity | exact Hs | exact Ht | reflexivity].
Qed.

(* ================================================================== *)
(** * The scoring pass *)

Lemma skewness_vectors (v : R -> R) X :
  map v (map sign (apply_along_axis_scalar skew X))
  = map (fun c => v (skew_sign c)) (columns X).
Proof. unfold apply_along_axis_scalar, skew_sign. now rewrite !map_map. Qed.

(** A scoring pass over the combined table [Xc], when it has a row and a
    column: it runs up to the percentile call, and returns when that call
    accepts the level. *)
Lemma decision_function_run s X Xc :
  combined s X = Returned Xc ->
  (0 < shape0 Xc)%nat -> (0 < shape1 Xc)%nat ->
  decision_function X s
  = match percentile (kept_scores s X Xc) ((1 - contamination s) * 100) with
    | Returned _ => (scored s Xc (kept_scores s X Xc), Returned (kept_scores s X Xc))
    | Raised e => (scored_before_threshold s Xc (kept_scores s X Xc), Raised e)
    end.
Proof.
  intros Hcat Hn Hd.
  unfold decision_function. rewrite bind_gets.
  assert (Hfirst : forall B (k : ndarray -> M B),
             bind match X_train s with
                  | Some T => lift (concatenate T X)
                  | None => ret X
                  end k s = k Xc s).
  { intros B k. unfold combined in Hcat. destruct (X_train s).
    - now apply bind_lift.
    - injection Hcat as <-. reflexivity. }
  rewrite Hfirst.
  rewrite (bind_lift _ _ _ _ (apply_along_axis_ecdf Xc Hn Hd)).
  rewrite bind_modify.
  assert (Hneg : apply_along_axis ecdf (arr_map Ropp Xc)
                 = Returned (tabulate (fun c x => ecdf_at (map Ropp c) (- x)) Xc)).
  { rewrite apply_along_axis_ecdf.
    - now rewrite tabulate_arr_map_Ropp.
    - unfold shape0, arr_map; simpl. now rewrite length_map.
    - exact Hd. }
  rewrite (bind_lift _ _ _ _ Hneg).
  rewrite bind_modify.
  rewrite !arr_map_tabulate.
  erewrite bind_getattr by reflexivity.
  erewrite bind_getattr by reflexivity.
  rewrite !skewness_vectors.
  rewrite arr_map_tabulate, !arr_broadcast_tabulate, arr_zip_tabulate.
  rewrite bind_modify.
  erewrite bind_getattr by reflexivity.
  rewrite arr_zip_tabulate, arr_map_tabulate, arr_zip_tabulate.
  rewrite bind_modify.
  erewrite bind_getattr by reflexivity.
  rewrite bind_gets. rewrite bind_modify.
  erewrite bind_getattr by reflexivity.
  rewrite bind_gets.
  change (tabulate _ Xc) with (tabulate outlier_cell Xc) at 1.
  cbn [X_train contamination set_O set_U_skew set_U_r set_U_l set_decision_scores_].
  change (tabulate (fun c x => Rmax _ _) Xc) with (tabulate outlier_cell Xc).
  change (tabulate (fun c x => _ + _) Xc) with (tabulate skew_cell Xc).
  change (tabulate (fun c x => -1 * ln (ecdf_at (map Ropp c) (- x))) Xc)
    with (tabulate right_tail Xc).
  change (tabulate (fun c x => -1 * ln (ecdf_at c x)) Xc) with (tabulate left_tail Xc).
  rewrite sum_axis1_tabulate. fold (kept_scores s X Xc).
  set (scores := kept_scores s X Xc).
  destruct (percentile scores ((1 - contamination s) * 100)) as [t|e] eqn:Hp.
  - assert (Ht : t = threshold_of (contamination s) scores).
    { unfold percentile in Hp. unfold threshold_of.
      destruct (Rle_dec 0 _); [|discriminate].
      destruct (Rle_dec _ 100); [|discriminate]. congruence. }
    subst t.
    rewrite (bind_lift _ _ _ _ eq_refl).
    rewrite !bind_modify.
    erewrite bind_run.
    2:{ apply label_loop with (scores := scores) (t := threshold_of (contamination s) scores)
                              (labels := zeros (length scores)); reflexivity. }
    rewrite label_fold_zeros.
    reflexivity.
  - rewrite (bind_lift_raise _ _ _ _ eq_refl). reflexivity.
Qed.

Lemma decision_function_first {B} s X Xc (k : ndarray -> M B) :
  combined s X = Returned Xc ->
  bind match X_train s with
       | Some T => lift (concatenate T X)
       | None => ret X
       end k s = k Xc s.
Proof.
  unfold combined. intros Hcat. destruct (X_train s).
  - now apply bind_lift.
  - injection Hcat as <-. reflexivity.
Qed.

(** The ways a scoring pass stops before it assigns anything. *)
Lemma decision_function_concat_raises s X e :
  combined s X = Raised e -> decision_function X s = (s, Raised e).
Proof.
  unfold combined, decision_function. intros Hcat. rewrite bind_gets.
  destruct (X_train s); [|discriminate].
  now apply bind_lift_raise.
Qed.

Lemma decision_function_no_column s X Xc :
  combined s X = Returned Xc -> shape1 Xc = 0%nat ->
  decision_function X s = (s, Raised ValueError).
Proof.
  intros Hcat Hd. unfold decision_function. rewrite bind_gets.
  rewrite (decision_function_first _ _ _ _ Hcat).
  apply bind_lift_raise. now apply apply_along_axis_no_column.
Qed.

Lemma decision_function_no_row s X Xc :
  combined s X = Returned Xc -> shape0 Xc = 0%nat -> (0 < shape1 Xc)%nat ->
  decision_function X s = (s, Raised ZeroDivisionError).
Proof.
  intros Hcat Hn Hd. unfold decision_function. rewrite bind_gets.
  rewrite (decision_function_first _ _ _ _ Hcat).
  apply bind_lift_raise. now apply apply_along_axis_ecdf_no_row.
Qed.

(** A scoring pass returns on every table with a row and a column once
    the contamination level is a fraction. *)
Lemma decision_function_returns s X Xc :
  combined s X = Returned Xc ->
  (0 < shape0 Xc)%nat -> (0 < shape1 Xc)%nat ->
  0 <= contamination s <= 1 ->
  decision_function X s
  = (scored s Xc (kept_scores s X Xc), Returned (kept_scores s X Xc)).
Proof.
  intros Hcat Hn Hd Hc.
  rewrite (decision_function_run s X Xc Hcat Hn Hd).
  now rewrite percentile_valid.
Qed.

(** Conversely, a pass that returned ran over a table with a row and a
    column and found an acceptable percentile level. *)
Lemma decision_function_inv s X s' r :
  decision_function X s = (s', Returned r) ->
  exists Xc,
    combined s X = Returned Xc /\
    (0 < shape0 Xc)%nat /\ (0 < shape1 Xc)%nat /\
    r = kept_scores s X Xc /\
    s' = scored s Xc r /\
    percentile r ((1 - contamination s) * 100)
    = Returned (threshold_of (contamination s) r).
Proof.
  intros H.
  destruct (combined s X) as [Xc|e] eqn:Hcat.
  2:{ rewrite (decision_function_concat_raises _ _ _ Hcat) in H. discriminate. }
  destruct (Nat.eq_dec (shape1 Xc) 0) as [Hd|Hd].
  { rewrite (decision_function_no_column _ _ _ Hcat Hd) in H. discriminate. }
  destruct (Nat.eq_dec (shape0 Xc) 0) as [Hn|Hn].
  { rewrite (decision_function_no_row _ _ _ Hcat Hn) in H by lia. discriminate. }
  rewrite (decision_function_run s X Xc Hcat) in H by lia.
  exists Xc.
  destruct (percentile (kept_scores s X Xc) ((1 - contamination s) * 100)) as [t|e] eqn:Hp;
    [|discriminate].
  injection H as <- <-.
  repeat split; try lia.
  rewrite Hp. f_equal.
  unfold percentile in Hp. unfold threshold_of.
  destruct (Rle_dec 0 _); [|discriminate].
  destruct (Rle_dec _ 100); [|discriminate]. congruence.
Qed.

(** The tables a pass over [Xc] leaves, whether or not the percentile call
    that follows them accepts its level. *)
Lemma decision_function_tables s X Xc :
  combined s X = Returned Xc ->
  (0 < shape0 Xc)%nat -> (0 < shape1 Xc)%nat ->
  U_l (fst (decision_function X s)) = Some (tabulate left_tail Xc) /\
  U_r (fst (decision_function X s)) = Some (tabulate right_tail Xc) /\
  U_skew (fst (decision_function X s)) = Some (tabulate skew_cell Xc) /\
  O (fst (decision_function X s)) = Some (tabulate outlier_cell Xc) /\
  decision_scores_ (fst (decision_function X s)) = Some (kept_scores s X Xc).
Proof.
  intros Hcat Hn Hd. rewrite (decision_function_run s X Xc Hcat Hn Hd).
  destruct (percentile _ _); simpl; repeat split.
Qed.

Lemma check_array_ok X :
  (0 < shape0 X)%nat -> (0 < shape1 X)%nat -> check_array X = Returned X.
Proof.
  intros Hn Hd. unfold check_array.
  destruct (shape0 X); [lia|]. destruct (shape1 X); [lia|]. reflexivity.
Qed.

Lemma check_array_inv X Y :
  check_array X = Returned Y -> Y = X /\ (0 < shape0 X)%nat /\ (0 < shape1 X)%nat.
Proof.
  unfold check_array. destruct (shape0 X); [discriminate|].
  destruct (shape1 X); [discriminate|]. intros [= <-]. repeat split; lia.
Qed.

(** The table [fit] scores: the training table followed by itself. *)
Lemma combined_after_fit s T :
  combined (set_X_train T s) T = Returned (mk_array (shape1 T) (rows T ++ rows T)).
Proof. unfold combined, concatenate; simpl. now rewrite Nat.eqb_refl. Qed.

Lemma fit_unfold X s :
  fit X s
  = match check_array X with
    | Returned Y => match decision_function Y (set_X_train Y s) with
                    | (s', Returned _) => (s', Returned tt)
                    | (s', Raised e) => (s', Raised e)
                    end
    | Raised e => (s, Raised e)
    end.
Proof.
  unfold fit. destruct (check_array X) as [Y|e]; [|reflexivity].
  rewrite (bind_lift _ _ _ _ eq_refl).
  unfold _set_n_classes. unfold bind at 1. unfold ret at 1.
  rewrite bind_modify. unfold bind, ret.
  destruct (decision_function Y (set_X_train Y s)) as [s' [r|e]]; reflexivity.
Qed.

Lemma fit_returns s T :
  (0 < shape0 T)%nat -> (0 < shape1 T)%nat ->
  0 <= contamination s <= 1 ->
  let TT := mk_array (shape1 T) (rows T ++ rows T) in
  let s1 := set_X_train T s in
  fit T s = (scored s1 TT (kept_scores s1 T TT), Returned tt).
Proof.
  intros Hn Hd Hc TT s1. rewrite fit_unfold, (check_array_ok T Hn Hd).
  fold s1. rewrite (decision_function_returns s1 T TT).
  - reflexivity.
  - apply combined_after_fit.
  - unfold shape0, TT; simpl. rewrite length_app. unfold shape0 in Hn. lia.
  - exact Hd.
  - exact Hc.
Qed.

Lemma fit_inv s T s' :
  fit T s = (s', Returned tt) ->
  (0 < shape0 T)%nat /\ (0 < shape1 T)%nat /\
  exists r, decision_function T (set_X_train T s) = (s', Returned r).
Proof.
  rewrite fit_unfold. destruct (check_array T) as [Y|e] eqn:Hchk; [|discriminate].
  apply check_array_inv in Hchk. destruct Hchk as [-> [Hn Hd]].
  destruct (decision_function T (set_X_train T s)) as [s2 [r|e]] eqn:Hrun; [|discriminate].
  intros [= <-]. repeat split; try assumption. now exists r.
Qed.

(* ================================================================== *)
(** * Slices *)

Lemma slice_from_neg_app {A} (a b : list A) :
  (0 < length b)%nat -> slice_from_neg (length b) (a ++ b) = b.
Proof.
  intros Hb. unfold slice_from_neg.
  destruct (length b) as [|k] eqn:Hk; [lia|].
  rewrite length_app, Hk.
  replace (length a + S k - S k)%nat with (length a + 0)%nat by lia.
  now rewrite skipn_app, Nat.add_0_r, skipn_all, Nat.sub_diag.
Qed.

Lemma slice_from_neg_0 {A} (a : list A) : slice_from_neg 0 a = a.
Proof. reflexivity. Qed.

(* ================================================================== *)
(** * A sample followed by itself *)

(** The empirical CDF levels of a sample do not change when the sample is
    repeated, and neither does its skewness in exact arithmetic. *)


Lemma mean_twice l : mean (l ++ l) = mean l.
Proof.
  unfold mean. rewrite sum_app, length_app, plus_INR.
  destruct l as [|a l]; [simpl; lra|].
  assert (Hn : 0 < INR (length (a :: l))) by (apply lt_0_INR; simpl; lia).
  field. lra.
Qed.

Lemma moment_twice k l : moment k (l ++ l) = moment k l.
Proof.
  unfold moment. now rewrite mean_twice, map_app, mean_twice.
Qed.

Lemma skew_twice l : skew (l ++ l) = skew l.
Proof. unfold skew. now rewrite !moment_twice. Qed.

(* ================================================================== *)
(** * A sample in another order *)

(** Likewise for a reordered sample. *)

Lemma mean_perm l l' : Permutation l l' -> mean l = mean l'.
Proof.
  intros H. unfold mean. now rewrite (sum_perm _ _ H), (Permutation_length H).
Qed.

Lemma moment_perm k l l' : Permutation l l' -> moment k l = moment k l'.
Proof.
  intros H. unfold moment. rewrite (mean_perm _ _ H).
  apply mean_perm. now apply Permutation_map.
Qed.

Lemma skew_perm l l' : Permutation l l' -> skew l = skew l'.
Proof. intros H. unfold skew. now rewrite !(moment_perm _ _ _ H). Qed.

Lemma ecdf_at_perm l l' x : Permutation l l' -> ecdf_at l x = ecdf_at l' x.
Proof.
  intros H. unfold ecdf_at. now rewrite (count_le_perm _ _ x H), (Permutation_length H).
Qed.

Lemma reorder_perm {A} (d : A) p l :
  Permutation p (seq 0 (length l)) -> Permutation (reorder d p l) l.
Proof.
  intros H. unfold reorder.
  rewrite (Permutation_map (fun i => nth i l d) H).
  now rewrite (map_seq_nth (fun a => a) d l), map_id.
Qed.

(* ================================================================== *)
(** * Signs and columns of the skew-adjusted table *)

Lemma sign_pos x : 0 < x -> sign x = 1.
Proof. intros H. unfold sign. destruct (Rlt_dec 0 x); [reflexivity | lra]. Qed.

Lemma sign_neg x : x < 0 -> sign x = -1.
Proof.
  intros H. unfold sign. destruct (Rlt_dec 0 x); [lra|].
  destruct (Rlt_dec x 0); [reflexivity | lra].
Qed.

Lemma sign_zero : sign 0 = 0.
Proof.
  unfold sign. destruct (Rlt_dec 0 0); [lra|]. destruct (Rlt_dec 0 0); [lra | reflexivity].
Qed.

Lemma sign_cases x : sign x = 1 \/ sign x = -1 \/ sign x = 0.
Proof.
  unfold sign. destruct (Rlt_dec 0 x); [tauto|]. destruct (Rlt_dec x 0); tauto.
Qed.


Lemma skewness_nth X j :
  (j < shape1 X)%nat ->
  nth j (map sign (apply_along_axis_scalar skew X)) 0 = skew_sign (column j X).
Proof.
  intros Hj. unfold apply_along_axis_scalar, columns. rewrite !map_map.
  now rewrite (nth_map_seq (fun j => sign (skew (column j X))) 0 (shape1 X) j Hj).
Qed.


Lemma tabulate_entries (P : R -> Prop) g X :
  (forall j r, (j < shape1 X)%nat -> In r (rows X) -> P (g (column j X) (nth j r 0))) ->
  Forall (Forall P) (rows (tabulate g X)).
Proof.
  intros H. unfold tabulate; simpl. apply Forall_forall. intros r' Hr'.
  apply in_map_iff in Hr'. destruct Hr' as [r [<- Hr]].
  apply Forall_forall. intros v Hv.
  apply in_map_iff in Hv. destruct Hv as [j [<- Hj]].
  apply in_seq in Hj. apply H; [lia | exact Hr].
Qed.

(* ================================================================== *)
(** * The linear-interpolation quantile lies among the values *)

Lemma exists_max (l : list R) :
  l <> [] -> exists i, (i < length l)%nat /\ forall x, In x l -> x <= nth i l 0.
Proof.
  induction l as [|a l IH]; [congruence|]. intros _.
  destruct l as [|b l].
  - exists 0%nat. split; [simpl; lia|]. intros x [<-|[]]. simpl. lra.
  - destruct IH as [i [Hi Hmax]]; [discriminate|].
    destruct (Rle_dec a (nth i (b :: l) 0)) as [Hle|Hgt].
    + exists (S i). split; [simpl in *; lia|].
      intros x [<-|Hx]; [exact Hle | now apply Hmax].
    + exists 0%nat. split; [simpl; lia|].
      intros x [<-|Hx]; [simpl; lra|].
      specialize (Hmax x Hx). simpl nth at 1. lra.
Qed.

Lemma quantile_linear_le_max (a : list R) (q m : R) :
  a <> [] -> 0 <= q <= 1 ->
  (forall x, In x a -> x <= m) ->
  quantile_linear a q <= m.
Proof.
  intros Hne Hq Hmax. unfold quantile_linear.
  assert (Hn : (0 < length a)%nat) by (destruct a; [congruence | simpl; lia]).
  set (n := length a) in *.
  set (v := q * INR (n - 1)).
  assert (Hn1 : 0 <= INR (n - 1)) by apply pos_INR.
  assert (Hv : 0 <= v <= INR (n - 1)) by (unfold v; split; nra).
  pose proof (Zfloor_bound v) as [Hf1 Hf2].
  assert (Hfz : (0 <= Zfloor v)%Z) by (apply Zfloor_lub; simpl; lra).
  set (lo := Z.to_nat (Zfloor v)).
  assert (Hlo : INR lo = IZR (Zfloor v)).
  { unfold lo. rewrite INR_IZR_INZ, Z2Nat.id by exact Hfz. reflexivity. }
  assert (Hlon : (lo <= n - 1)%nat).
  { apply INR_le. rewrite Hlo. lra. }
  set (hi := Nat.min (lo + 1) (n - 1)).
  assert (Hin : forall i, (i < n)%nat -> nth i (sort a) 0 <= m).
  { intros i Hi. apply Hmax.
    apply (Permutation_in _ (Permutation_sym (sort_perm a))).
    apply nth_In. rewrite sort_length. exact Hi. }
  assert (Ha : nth lo (sort a) 0 <= m) by (apply Hin; lia).
  assert (Hb : nth hi (sort a) 0 <= m) by (apply Hin; unfold hi; lia).
  assert (Hg : 0 <= v - INR lo <= 1) by (rewrite Hlo; lra).
  nra.
Qed.

(* ================================================================== *)
(** * Indexing *)

Lemma getitem_out_of_range {A} (a : list A) (i : Z) :
  (i >= Z.of_nat (length a) \/ i < - Z.of_nat (length a))%Z ->
  getitem a i = Raised IndexError.
Proof.
  intros H. unfold getitem.
  destruct (Z.ltb_spec i 0).
  - destruct (Z.leb_spec 0 (Z.of_nat (length a) + i)); [lia | reflexivity].
  - destruct (Z.leb_spec 0 i); [|reflexivity].
    destruct (Z.ltb_spec i (Z.of_nat (length a))); [lia | reflexivity].
Qed.

Lemma getitem_nonneg {A} (a : list A) (d : A) (i : Z) :
  (0 <= i < Z.of_nat (length a))%Z ->
  getitem a i = Returned (nth (Z.to_nat i) a d).
Proof.
  intros H. unfold getitem.
  destruct (Z.ltb_spec i 0); [lia|].
  destruct (Z.leb_spec 0 i); [|lia].
  destruct (Z.ltb_spec i (Z.of_nat (length a))); [|lia]. simpl.
  destruct (nth_error a (Z.to_nat i)) eqn:E.
  - f_equal. symmetry. now apply nth_error_nth.
  - apply nth_error_None in E. lia.
Qed.

Lemma getitem_negative {A} (a : list A) (d : A) (i : Z) :
  (- Z.of_nat (length a) <= i < 0)%Z ->
  getitem a i = Returned (nth (Z.to_nat (Z.of_nat (length a) + i)) a d).
Proof.
  intros H. unfold getitem.
  destruct (Z.ltb_spec i 0); [|lia].
  destruct (Z.leb_spec 0 (Z.of_nat (length a) + i)); [|lia].
  destruct (Z.ltb_spec (Z.of_nat (length a) + i) (Z.of_nat (length a))); [|lia]. simpl.
  destruct (nth_error a (Z.to_nat (Z.of_nat (length a) + i))) eqn:E.
  - f_equal. symmetry. now apply nth_error_nth.
  - apply nth_error_None in E. lia.
Qed.

Lemma quantile_axis0_valid X q :
  0 <= q <= 1 ->
  quantile_axis0 X q = Returned (map (fun c => quantile_linear c q) (columns X)).
Proof.
  intros Hq. unfold quantile_axis0.
  destruct (Rle_dec 0 q); [|lra]. destruct (Rle_dec q 1); [reflexivity | lra].
Qed.

(* ================================================================== *)
(** * Methods that only read the instance *)

Lemma read_only_ret {A} (a : A) : read_only (ret a).
Proof. intros s. reflexivity. Qed.

Lemma read_only_lift {A} (o : outcome A) : read_only (lift o).
Proof. intros s. reflexivity. Qed.

Lemma read_only_gets {A} (f : COPOD -> A) : read_only (gets f).
Proof. intros s. reflexivity. Qed.

Lemma read_only_getattr {A} (f : COPOD -> option A) : read_only (getattr f).
Proof. intros s. unfold getattr. now destruct (f s). Qed.

Lemma read_only_bind {A B} (c : M A) (k : A -> M B) :
  read_only c -> (forall a, read_only (k a)) -> read_only (bind c k).
Proof.
  intros Hc Hk s. unfold bind. specialize (Hc s).
  destruct (c s) as [s' [a|e]]; simpl in Hc; subst s'.
  - apply Hk.
  - reflexivity.
Qed.

Lemma read_only_for_each {A} (l : list A) (body : A -> M unit) :
  (forall a, read_only (body a)) -> read_only (for_each l body).
Proof.
  intros Hb. induction l as [|a l IH]; simpl.
  - apply read_only_ret.
  - apply read_only_bind; [apply Hb | intros _; exact IH].
Qed.

#[local] Hint Resolve read_only_ret read_only_lift read_only_gets read_only_getattr : ro.

Lemma explain_outlier_read_only ind cutoffs : read_only (explain_outlier ind cutoffs).
Proof.
  unfold explain_outlier.
  repeat first
    [ apply read_only_bind; [|intros ?]
    | apply read_only_for_each; intros ?
    | solve [auto with ro] ].
Qed.

(* ================================================================== *)
(** * Explaining a row *)

Lemma int_max_max_ok X :
  (0 < shape0 X)%nat -> (0 < shape1 X)%nat -> int_max_max X = Returned tt.
Proof.
  intros Hn Hd. unfold int_max_max.
  destruct (shape0 X); [lia|]. destruct (shape1 X); [lia|]. reflexivity.
Qed.

Lemma getitem_returned_nonempty {A} (a : list A) (i : Z) (v : A) :
  getitem a i = Returned v -> (0 < length a)%nat.
Proof.
  destruct a as [|x a]; [|simpl; lia].
  rewrite getitem_out_of_range by (simpl; lia). discriminate.
Qed.

Lemma cutoff_loop s o cs :
  O s = Some o ->
  Forall (fun q => 0 <= q <= 1) cs ->
  for_each cs (fun i => o <- getattr O ;; _ <- lift (quantile_axis0 o i) ;; ret tt) s
  = (s, Returned tt).
Proof.
  intros Ho. induction 1 as [|q cs Hq _ IH]; [reflexivity|].
  simpl for_each. erewrite bind_run; [exact IH|].
  rewrite (bind_getattr _ _ _ _ Ho).
  rewrite (bind_lift _ _ _ _ (quantile_axis0_valid o q Hq)). reflexivity.
Qed.

Lemma explain_outlier_row_raises s o ind cutoffs e :
  O s = Some o ->
  getitem (rows o) ind = Raised e ->
  explain_outlier ind cutoffs s = (s, Raised e).
Proof.
  intros Ho Hrow. unfold explain_outlier. rewrite bind_gets.
  rewrite (bind_getattr _ _ _ _ Ho).
  now apply bind_lift_raise.
Qed.


Lemma explain_outlier_returns s o labels ind cutoffs row lab q0 q1 rest :
  O s = Some o ->
  (0 < shape1 o)%nat ->
  labels_ s = Some labels ->
  getitem (rows o) ind = Returned row ->
  getitem labels ind = Returned lab ->
  resolve_cutoffs s cutoffs = q0 :: q1 :: rest ->
  Forall (fun q => 0 <= q <= 1) (q0 :: q1 :: rest) ->
  explain_outlier ind cutoffs s
  = (s, Returned (row,
                  map (fun c => quantile_linear c q0) (columns o),
                  map (fun c => quantile_linear c q1) (columns o))).
Proof.
  intros Ho Hd Hl Hrow Hlab Hres Hcs. unfold explain_outlier. rewrite bind_gets.
  fold (resolve_cutoffs s cutoffs). rewrite Hres.
  pose proof (int_max_max_ok o (getitem_returned_nonempty _ _ _ Hrow) Hd) as Hmax.
  rewrite (bind_getattr _ _ _ _ Ho).
  rewrite (bind_lift _ _ _ _ Hrow).
  erewrite bind_run by (apply (cutoff_loop s o); assumption).
  rewrite (bind_getattr _ _ _ _ Ho), (bind_lift _ _ _ _ Hmax).
  rewrite (bind_getattr _ _ _ _ Ho), (bind_lift _ _ _ _ Hmax).
  rewrite (bind_getattr _ _ _ _ Hl).
  rewrite (bind_lift _ _ _ _ Hlab).
  rewrite (bind_getattr _ _ _ _ Ho).
  rewrite (bind_lift _ _ _ _ Hrow).
  assert (H0 : getitem (q0 :: q1 :: rest) 0 = Returned q0).
  { rewrite (getitem_nonneg _ 0) by (simpl length; lia). reflexivity. }
  assert (H1 : getitem (q0 :: q1 :: rest) 1 = Returned q1).
  { rewrite (getitem_nonneg _ 0) by (simpl length; lia). reflexivity. }
  inversion Hcs as [|? ? Hq0 Hcs']; subst. inversion Hcs' as [|? ? Hq1 _]; subst.
  rewrite (bind_lift _ _ _ _ H0).
  rewrite (bind_lift _ _ _ _ (quantile_axis0_valid o q0 Hq0)).
  rewrite (bind_lift _ _ _ _ H1).
  rewrite (bind_lift _ _ _ _ (quantile_axis0_valid o q1 Hq1)).
  reflexivity.
Qed.

(* ================================================================== *)
(** * Construction *)

Lemma init_valid c : 0 < c <= 1 / 2 -> __init__ c = Returned (fresh c).
Proof.
  intros Hc. unfold __init__.
  destruct (Rlt_dec 0 c); [|lra]. destruct (Rle_dec c (1 / 2)); [reflexivity | lra].
Qed.

Lemma init_inv c s : __init__ c = Returned s -> s = fresh c /\ 0 < c <= 1 / 2.
Proof.
  unfold __init__. destruct (Rlt_dec 0 c); [|discriminate].
  destruct (Rle_dec c (1 / 2)); [|discriminate].
  intros [= <-]. split; [reflexivity | lra].
Qed.

Lemma T2_table : table T2.
Proof. unfold table, well_formed, T2, shape0; simpl. repeat constructor. Qed.

(* ================================================================== *)
(** * A detector that holds a training table *)

Lemma kept_scores_fitted s T X d :
  X_train s = Some T -> (0 < shape0 X)%nat ->
  kept_scores s X (mk_array d (rows T ++ rows X))
  = map (row_score (mk_array d (rows T ++ rows X))) (rows X).
Proof.
  intros Ht Hk. unfold kept_scores. rewrite Ht. simpl rows. rewrite map_app.
  set (f := row_score _).
  replace (shape0 X) with (length (map f (rows X))) by (now rewrite length_map).
  apply slice_from_neg_app. now rewrite length_map.
Qed.

(** A query with at least one row, scored by a detector that holds a
    training table: the pass runs over the training rows followed by the
    query rows and keeps the scores of the query rows, in order. *)
Lemma decision_function_fitted s T X :
  X_train s = Some T ->
  shape1 T = shape1 X -> (0 < shape1 T)%nat -> (0 < shape0 X)%nat ->
  0 <= contamination s <= 1 ->
  let Xc := mk_array (shape1 T) (rows T ++ rows X) in
  decision_function X s
  = (scored s Xc (map (row_score Xc) (rows X)), Returned (map (row_score Xc) (rows X))).
Proof.
  intros Ht Hd1 Hd Hk Hc Xc.
  assert (Hcat : combined s X = Returned Xc).
  { unfold combined, concatenate. rewrite Ht, Hd1, Nat.eqb_refl. now rewrite <- Hd1. }
  assert (Hkept : kept_scores s X Xc = map (row_score Xc) (rows X))
    by (now apply kept_scores_fitted).
  rewrite (decision_function_returns s X Xc Hcat); [now rewrite Hkept | | exact Hd | exact Hc].
  unfold shape0, Xc; simpl. rewrite length_app. unfold shape0 in Hk. lia.
Qed.

(* ================================================================== *)
(** * The scoring pass with the skewness computed in doubles *)

(** The length of the array is fuel enough for the pairwise summation:
    more does not change the sum. *)
Lemma pairwise_sum_fuel f1 : forall f2 a,
  (length a <= f1)%nat -> (length a <= f2)%nat ->
  pairwise_sum f1 a = pairwise_sum f2 a.
Proof.
  induction f1 as [|f1 IH]; intros f2 a H1 H2.
  - destruct a; [|simpl in H1; lia]. destruct f2; reflexivity.
  - destruct f2 as [|f2].
    + destruct a; [|simpl in H2; lia]. reflexivity.
    + cbn [pairwise_sum].
      destruct (length a <? 8)%nat eqn:E8; [reflexivity|].
      destruct (length a <=? 128)%nat eqn:E128; [reflexivity|].
      apply Nat.leb_gt in E128.
      set (n2 := (length a / 2 - (length a / 2) mod 8)%nat).
      assert (Hn2 : (0 < n2 < length a)%nat).
      { unfold n2.
        pose proof (Nat.mod_upper_bound (length a / 2) 8 ltac:(lia)).
        pose proof (Nat.div_lt (length a) 2 ltac:(lia) ltac:(lia)).
        assert (64 <= length a / 2)%nat by (apply Nat.div_le_lower_bound; lia).
        lia. }
      f_equal; apply IH; rewrite ?length_firstn, ?length_skipn; lia.
Qed.

(** Small runs of the summation and of the skewness: the three branches
    of the pairwise sum, a column without variance and a column whose
    moments overflow. *)
Example sum64_short : sum64 (map float_of_nat (seq 1 7)) = 28%float.
Proof. vm_compute. reflexivity. Qed.

Example sum64_blocks : sum64 (map float_of_nat (seq 1 100)) = 5050%float.
Proof. vm_compute. reflexivity. Qed.

Example sum64_split : sum64 (map float_of_nat (seq 1 1000)) = 500500%float.
Proof. vm_compute. reflexivity. Qed.

Example skew64_constant : sign64 (skew64 [5%float; 5%float; 5%float]) = Some 0.
Proof.
  unfold sign64.
  replace (0 <? skew64 [5%float; 5%float; 5%float])%float with false
    by (vm_compute; reflexivity).
  replace (skew64 [5%float; 5%float; 5%float] <? 0)%float with false
    by (vm_compute; reflexivity).
  replace (skew64 [5%float; 5%float; 5%float] =? 0)%float with true
    by (vm_compute; reflexivity).
  reflexivity.
Qed.

Example skew64_overflow :
  sign64 (skew64 [0x1p+400%float; 0x1p+401%float; 0x1p+402%float]) = None.
Proof.
  unfold sign64.
  replace (0 <? skew64 [0x1p+400%float; 0x1p+401%float; 0x1p+402%float])%float
    with false by (vm_compute; reflexivity).
  replace (skew64 [0x1p+400%float; 0x1p+401%float; 0x1p+402%float] <? 0)%float
    with false by (vm_compute; reflexivity).
  replace (skew64 [0x1p+400%float; 0x1p+401%float; 0x1p+402%float] =? 0)%float
    with false by (vm_compute; reflexivity).
  reflexivity.
Qed.

Lemma shape0_reals X : shape0 (reals X) = shape0_64 X.
Proof. unfold shape0, reals, shape0_64; simpl. apply length_map. Qed.

Lemma skewness64_seq X :
  skewness64 X = map (fun j => sign64 (skew64 (column64 j X))) (seq 0 (shape1_64 X)).
Proof. unfold skewness64, columns64. now rewrite !map_map. Qed.

Lemma nansum_contribution sg col x :
  match nan_max
          (nan_add (nan_mul (left_tail col x * -1) (option_map (fun s => sign (s - 1)) sg))
                   (nan_mul (right_tail col x) (option_map (fun s => sign (s + 1)) sg)))
          ((left_tail col x + right_tail col x) / 2)
  with Some v => v | None => 0 end
  = contribution sg col x.
Proof. destruct sg; reflexivity. Qed.

(** The pass over a combined table with a row and a column, cell by
    cell. *)
Lemma decision_function64_run train X Xc :
  match train with
  | Some T => concatenate64 T X
  | None => Returned X
  end = Returned Xc ->
  (0 < shape0_64 Xc)%nat -> (0 < shape1_64 Xc)%nat ->
  decision_function64 train X
  = Returned match train with
             | Some _ =>
                 slice_from_neg (shape0_64 X)
                   (map (row_score64 (skewness64 Xc) (reals Xc)) (rows (reals Xc)))
             | None => map (row_score64 (skewness64 Xc) (reals Xc)) (rows (reals Xc))
             end.
Proof.
  intros Hcat Hn Hd. unfold decision_function64. rewrite Hcat. cbn [obind].
  assert (Hn' : (0 < shape0 (reals Xc))%nat) by (now rewrite shape0_reals).
  assert (Hd' : (0 < shape1 (reals Xc))%nat) by exact Hd.
  rewrite (apply_along_axis_ecdf (reals Xc) Hn' Hd'). cbn [obind].
  assert (Hneg : apply_along_axis ecdf (arr_map Ropp (reals Xc))
                 = Returned (tabulate (fun c x => ecdf_at (map Ropp c) (- x)) (reals Xc))).
  { rewrite apply_along_axis_ecdf.
    - now rewrite tabulate_arr_map_Ropp.
    - unfold shape0, arr_map; simpl. rewrite length_map. exact Hn'.
    - exact Hd'. }
  rewrite Hneg. cbn [obind]. f_equal.
  rewrite !arr_map_tabulate, arr_zip_tabulate, arr_map_tabulate.
  rewrite skewness64_seq.
  unfold tabulate. cbn [rows]. change (shape1 (reals Xc)) with (shape1_64 Xc).
  rewrite !map_map. rewrite zip_with_map. rewrite zip_with_map.
  rewrite map_map.
  assert (E : forall r,
             nansum
               (zip_with nan_max
                  (zip_with nan_add
                     (zip_with nan_mul
                        (map (fun j => -1 * ln (ecdf_at (column j (reals Xc)) (nth j r 0)) * -1)
                             (seq 0 (shape1_64 Xc)))
                        (map (fun j => option_map (fun s => sign (s - 1))
                                         (sign64 (skew64 (column64 j Xc))))
                             (seq 0 (shape1_64 Xc))))
                     (zip_with nan_mul
                        (map (fun j => -1 * ln (ecdf_at (map Ropp (column j (reals Xc)))
                                                        (- nth j r 0)))
                             (seq 0 (shape1_64 Xc)))
                        (map (fun j => option_map (fun s => sign (s + 1))
                                         (sign64 (skew64 (column64 j Xc))))
                             (seq 0 (shape1_64 Xc)))))
                  (map (fun j => (-1 * ln (ecdf_at (column j (reals Xc)) (nth j r 0))
                                  + -1 * ln (ecdf_at (map Ropp (column j (reals Xc)))
                                                     (- nth j r 0))) / 2)
                       (seq 0 (shape1_64 Xc))))
             = row_score64
                 (map (fun j => sign64 (skew64 (column64 j Xc))) (seq 0 (shape1_64 Xc)))
                 (reals Xc) r).
  { intros r. rewrite !zip_with_map.
    unfold nansum, row_score64. rewrite map_map. f_equal.
    change (shape1 (reals Xc)) with (shape1_64 Xc).
    apply map_ext_in. intros j Hj. apply in_seq in Hj.
    rewrite (nth_map_seq (fun j => sign64 (skew64 (column64 j Xc))) None (shape1_64 Xc) j)
      by lia.
    apply nansum_contribution. }
  rewrite (map_ext _ _ E). reflexivity.
Qed.

Lemma decision_function64_unfitted X :
  (0 < shape0_64 X)%nat -> (0 < shape1_64 X)%nat ->
  decision_function64 None X
  = Returned (map (row_score64 (skewness64 X) (reals X)) (rows (reals X))).
Proof.
  intros Hn Hd. now rewrite (decision_function64_run None X X eq_refl Hn Hd).
Qed.






(* ================================================================== *)
(** * Scoring an unfitted detector against fitting it *)

(** In exact arithmetic the skewness of a column followed by itself is
    the skewness of the column ([skew_twice]).  In doubles it need not be:
    the third moment of the three values of [T33] is a rounding residue
    that is positive over the three values and negative over the six. *)
Lemma value_finite (x : float) s m e :
  Prim2SF x = S754_finite s m e ->
  value x = (if s then -1 else 1) * (IZR (Z.pos m) * powerRZ 2 e).
Proof. intros H. unfold value. now rewrite H. Qed.


Lemma ln_third : 0 < - ln (1 / 3) /\ 0 < - ln (2 / 3) /\ ln 1 = 0.
Proof.
  assert (H3 : ln (1 / 3) < ln 1) by (apply ln_increasing; lra).
  assert (H2 : ln (2 / 3) < ln 1) by (apply ln_increasing; lra).
  rewrite ln_1 in *. repeat split; lra.
Qed.

(** The contributions of the cells of a column of three distinct values,
    for a skewness sign of 1 and of -1. *)
Lemma contributions_three (lo mid hi : R) :
  lo < mid -> mid < hi ->
  let col := [hi; mid; lo] in
  contribution (Some 1) col hi = - ln (1 / 3) /\
  contribution (Some 1) col mid = - ln (2 / 3) /\
  contribution (Some 1) col lo = - ln (1 / 3) / 2 /\
  contribution (Some (-1)) col hi = - ln (1 / 3) / 2 /\
  contribution (Some (-1)) col mid = - ln (2 / 3) /\
  contribution (Some (-1)) col lo = - ln (1 / 3).
Proof.
  intros H1 H2 col.
  destruct ln_third as [Ha [Hb H0]].
  assert (El1 : ecdf_at col hi = 1) by count_sample.
  assert (El2 : ecdf_at col mid = 2 / 3) by count_sample.
  assert (El3 : ecdf_at col lo = 1 / 3) by count_sample.
  assert (Er1 : ecdf_at (map Ropp col) (- hi) = 1 / 3) by count_sample.
  assert (Er2 : ecdf_at (map Ropp col) (- mid) = 2 / 3) by count_sample.
  assert (Er3 : ecdf_at (map Ropp col) (- lo) = 1) by count_sample.
  unfold contribution, left_tail, right_tail.
  rewrite El1, El2, El3, Er1, Er2, Er3, H0.
  replace (1 - 1) with 0 by lra. replace (-1 + 1) with 0 by lra.
  rewrite sign_zero, (sign_pos (1 + 1)), (sign_neg (-1 - 1)) by lra.
  repeat split.
  - rewrite Rmax_left by lra. lra.
  - rewrite Rmax_left by lra. lra.
  - rewrite Rmax_right by lra. lra.
  - rewrite Rmax_right by lra. lra.
  - rewrite Rmax_left by lra. lra.
  - rewrite Rmax_left by lra. lra.
Qed.

Lemma sign64_pos x : (0 <? x)%float = true -> sign64 x = Some 1.
Proof. intros H. unfold sign64. now rewrite H. Qed.

Lemma sign64_neg x :
  (0 <? x)%float = false -> (x <? 0)%float = true -> sign64 x = Some (-1).
Proof. intros H1 H2. unfold sign64. now rewrite H1, H2. Qed.





Lemma T124_table64 : table64 T124.
Proof.
  unfold table64, shape0_64, T124; cbn [rows64 shape1_64 length].
  repeat split; try lia; repeat constructor.
Qed.

Lemma skewness64_T124 : skewness64 T124 = [Some 1].
Proof.
  unfold skewness64, columns64, column64, T124. cbn [map seq shape1_64 rows64 nth].
  rewrite sign64_pos by (vm_compute; reflexivity). reflexivity.
Qed.




(** Where the binary64 skewness signs are the exact ones, the scores are
    those of the exact-arithmetic reading. *)
Lemma decision_function64_exact (c : R) (X : ndarray64) :
  0 <= c <= 1 ->
  (0 < shape0_64 X)%nat -> (0 < shape1_64 X)%nat ->
  skewness64 X = map Some (map sign (apply_along_axis_scalar skew (reals X))) ->
  decision_function64 None X = snd (decision_function (reals X) (fresh c)).
Proof.
  intros Hc Hn Hd Hs.
  rewrite (decision_function64_unfitted X Hn Hd).
  rewrite (decision_function_returns (fresh c) (reals X) (reals X)).
  - cbn [snd]. f_equal. unfold kept_scores. cbn [X_train fresh].
    apply map_ext. intros r. unfold row_score64, row_score. f_equal.
    apply map_ext_in. intros j Hj. apply in_seq in Hj.
    rewrite Hs.
    rewrite (nth_map_lt Some _ None 0)
      by (unfold apply_along_axis_scalar; rewrite !length_map, columns_length; lia).
    rewrite skewness_nth by lia. reflexivity.
  - reflexivity.
  - now rewrite shape0_reals.
  - exact Hd.
  - exact Hc.
Qed.

(* ================================================================== *)
(** * The skew-adjusted table *)

Lemma skew_cell_right col x : skew_sign col = 1 -> skew_cell col x = right_tail col x.
Proof.
  intros H. unfold skew_cell. rewrite H.
  replace (1 - 1) with 0 by lra. rewrite sign_zero, (sign_pos (1 + 1)) by lra. lra.
Qed.

Lemma skew_cell_left col x : skew_sign col = -1 -> skew_cell col x = left_tail col x.
Proof.
  intros H. unfold skew_cell. rewrite H.
  replace (-1 + 1) with 0 by lra. rewrite sign_zero, (sign_neg (-1 - 1)) by lra. lra.
Qed.

Lemma skew_cell_both col x :
  skew_sign col = 0 -> skew_cell col x = left_tail col x + right_tail col x.
Proof.
  intros H. unfold skew_cell. rewrite H.
  rewrite (sign_neg (0 - 1)), (sign_pos (0 + 1)) by lra. lra.
Qed.





(* ================================================================== *)
(** * Scoring a query on a fitted detector *)

Lemma fit_T2 :
  fit T2 (fresh (1 / 10))
  = (scored (set_X_train T2 (fresh (1 / 10))) (mk_array 1 (rows T2 ++ rows T2))
            (kept_scores (set_X_train T2 (fresh (1 / 10))) T2
                         (mk_array 1 (rows T2 ++ rows T2))),
     Returned tt).
Proof.
  apply (fit_returns (fresh (1 / 10)) T2).
  - unfold shape0, T2; simpl; lia.
  - unfold T2; simpl; lia.
  - simpl; lra.
Qed.

(** C3, at a query without rows.  A detector fitted on the two-row table
    [T2] and asked to score the empty one-column query [Q0] returns two
    scores, those of the two training rows, where the specification has it
    return the scores of the last [k = 0] rows, that is none: [a[-0:]] is
    the whole array. *)
Theorem empty_query_returns_training_scores :
  exists s' r,
    decision_function Q0 (fst (fit T2 (fresh (1 / 10)))) = (s', Returned r) /\
    shape0 Q0 = 0%nat /\
    r = map (row_score T2) (rows T2) /\
    length r = 2%nat.
Proof.
  rewrite fit_T2. cbn [fst].
  set (s := scored _ _ _).
  exists (scored s T2 (map (row_score T2) (rows T2))), (map (row_score T2) (rows T2)).
  split; [|repeat split].
  apply (decision_function_returns s Q0 T2).
  - reflexivity.
  - unfold shape0, T2; simpl; lia.
  - unfold T2; simpl; lia.
  - simpl; lra.
Qed.

(* ================================================================== *)
(** * Threshold and labels after a pass *)

Lemma labels_of_length t scores : length (labels_of t scores) = length scores.
Proof. apply length_map. Qed.

Lemma labels_of_nth t scores i :
  (i < length scores)%nat ->
  nth i (labels_of t scores) 0 = if Rge_dec (nth i scores 0) t then 1 else 0.
Proof.
  intros Hi. unfold labels_of.
  exact (nth_map_lt (fun sc => if Rge_dec sc t then 1 else 0) scores 0 0 i Hi).
Qed.

Lemma scored_threshold_labels_ok s Xc r :
  percentile r ((1 - contamination s) * 100) = Returned (threshold_of (contamination s) r) ->
  threshold_labels_ok (scored s Xc r).
Proof.
  intros Hp. unfold threshold_labels_ok.
  exists r, (threshold_of (contamination s) r),
         (labels_of (threshold_of (contamination s) r) r).
  simpl. repeat split; try assumption.
  - apply labels_of_length.
  - apply labels_of_nth.
Qed.

Lemma decision_function_consistent s X :
  0 <= contamination s <= 1 ->
  scores_consistent s -> scores_consistent (fst (decision_function X s)).
Proof.
  intros Hc Hs.
  destruct (combined s X) as [Xc|e] eqn:Hcat.
  2:{ now rewrite (decision_function_concat_raises _ _ _ Hcat). }
  destruct (Nat.eq_dec (shape1 Xc) 0) as [Hd|Hd].
  { now rewrite (decision_function_no_column _ _ _ Hcat Hd). }
  destruct (Nat.eq_dec (shape0 Xc) 0) as [Hn|Hn].
  { rewrite (decision_function_no_row _ _ _ Hcat Hn) by lia. exact Hs. }
  rewrite (decision_function_returns s X Xc Hcat) by (lia || assumption).
  right. apply scored_threshold_labels_ok. now apply percentile_valid.
Qed.

Lemma fit_consistent s X :
  0 <= contamination s <= 1 ->
  scores_consistent s -> scores_consistent (fst (fit X s)).
Proof.
  intros Hc Hs. rewrite fit_unfold.
  destruct (check_array X) as [Y|e] eqn:Hchk; [|exact Hs].
  apply check_array_inv in Hchk. destruct Hchk as [-> [Hn Hd]].
  pose proof (fit_returns s X Hn Hd Hc) as Hfit. rewrite fit_unfold in Hfit.
  rewrite (check_array_ok X Hn Hd) in Hfit. cbv zeta in Hfit.
  destruct (decision_function X (set_X_train X s)) as [s2 [r|e]]; [|discriminate].
  injection Hfit as ->. simpl fst.
  right. apply scored_threshold_labels_ok. now apply percentile_valid.
Qed.

(** C4.  After every call of [decision_function] or [fit] that returns,
    [threshold_] is the linear-interpolation percentile of level
    [(1 - contamination) * 100] of the current [decision_scores_] (the
    array just returned), and [labels_] has, at every index of that array,
    1 where the score is at least the threshold and 0 elsewhere.  On a
    detector with a contamination level the constructor accepts, the
    agreement of threshold and labels with the score array, once there is
    one, also survives the calls that raise. *)
Theorem threshold_and_labels (s s' : COPOD) (X : ndarray) :
  (forall r, decision_function X s = (s', Returned r) ->
             decision_scores_ s' = Some r /\ threshold_labels_ok s') /\
  (fit X s = (s', Returned tt) -> threshold_labels_ok s') /\
  (valid_contamination s -> scores_consistent s ->
   scores_consistent (fst (decision_function X s)) /\
   scores_consistent (fst (fit X s))).
Proof.
  assert (Hdf : forall s0 X0 r, decision_function X0 s0 = (s', Returned r) ->
                                decision_scores_ s' = Some r /\ threshold_labels_ok s').
  { intros s0 X0 r Hrun. apply decision_function_inv in Hrun.
    destruct Hrun as [Xc [_ [_ [_ [_ [-> Hp]]]]]].
    split; [reflexivity | now apply scored_threshold_labels_ok]. }
  split; [|split].
  - intros r. apply Hdf.
  - intros Hfit. apply fit_inv in Hfit. destruct Hfit as [_ [_ [r Hrun]]].
    exact (proj2 (Hdf _ _ r Hrun)).
  - intros [Hc0 Hc1] Hs. split.
    + apply decision_function_consistent; [lra | exact Hs].
    + apply fit_consistent; [lra | exact Hs].
Qed.

Lemma threshold_and_labels_witness :
  (decision_scores_ (scored (fresh (1 / 10)) T2 (kept_scores (fresh (1 / 10)) T2 T2))
   = Some (kept_scores (fresh (1 / 10)) T2 T2) /\
   threshold_labels_ok (scored (fresh (1 / 10)) T2 (kept_scores (fresh (1 / 10)) T2 T2))) /\
  threshold_labels_ok (fst (fit T2 (fresh (1 / 10)))) /\
  (scores_consistent (fst (decision_function Q0 (fresh (1 / 10)))) /\
   scores_consistent (fst (fit Q0 (fresh (1 / 10))))).
Proof.
  split; [|split].
  - apply (proj1 (threshold_and_labels (fresh (1 / 10)) _ T2)).
    apply decision_function_returns.
    + reflexivity.
    + unfold shape0, T2; simpl; lia.
    + unfold T2; simpl; lia.
    + simpl; lra.
  - apply (proj1 (proj2 (threshold_and_labels (fresh (1 / 10)) _ T2))).
    rewrite fit_T2. reflexivity.
  - apply (proj2 (proj2 (threshold_and_labels (fresh (1 / 10)) (fresh (1 / 10)) Q0))).
    + unfold valid_contamination; simpl; lra.
    + left. reflexivity.
Defined.

(* ================================================================== *)
(** * The tail tables are non-negative *)

Lemma ecdf_values_in_unit col :
  col <> [] ->
  exists v, ecdf col = Returned v /\ Forall (fun p => 0 < p <= 1) v.
Proof.
  intros Hne. exists (map (ecdf_at col) col). split; [now apply ecdf_refines|].
  apply Forall_forall. intros p Hp. apply in_map_iff in Hp.
  destruct Hp as [x [<- Hx]]. now apply ecdf_at_range.
Qed.

Lemma tail_tables_tabulated s' Xc :
  (0 < shape0 Xc)%nat -> (0 < shape1 Xc)%nat ->
  U_l s' = Some (tabulate left_tail Xc) ->
  U_r s' = Some (tabulate right_tail Xc) ->
  tail_tables_ok s' Xc.
Proof.
  intros Hn Hd Hl Hr. unfold tail_tables_ok.
  exists (tabulate ecdf_at Xc), (tabulate (fun c x => ecdf_at (map Ropp c) (- x)) Xc).
  assert (Hel : entries (fun p => 0 < p <= 1) (tabulate ecdf_at Xc)).
  { apply tabulate_entries. intros j r0 _ Hr0. now apply ecdf_at_range, column_In. }
  assert (Her : entries (fun p => 0 < p <= 1)
                        (tabulate (fun c x => ecdf_at (map Ropp c) (- x)) Xc)).
  { apply tabulate_entries. intros j r0 _ Hr0. apply ecdf_at_range.
    apply in_map_iff. exists (nth j r0 0). split; [reflexivity | now apply column_In]. }
  rewrite !arr_map_tabulate.
  repeat split; try assumption.
  - now apply apply_along_axis_ecdf.
  - rewrite apply_along_axis_ecdf.
    + now rewrite tabulate_arr_map_Ropp.
    + unfold shape0, arr_map; simpl. now rewrite length_map.
    + exact Hd.
  - apply tabulate_entries. intros j r0 _ Hr0. now apply left_tail_nonneg, column_In.
  - apply tabulate_entries. intros j r0 _ Hr0. now apply right_tail_nonneg, column_In.
Qed.

(** C5.  On a non-empty sample [ecdf] returns values in (0, 1] only, a
    sample being evaluated against its own empirical CDF with [<=]; and
    for every scoring pass over a combined table with a row and a column,
    the two column-wise ECDF tables (of the table and of its negation)
    hold values in (0, 1] only, so that the logarithm is never taken at 0,
    and every entry of the stored [U_l] and [U_r] is at least 0.  This
    holds in particular after every call that returns. *)
Theorem tails_nonneg :
  (forall col, col <> [] ->
     exists v, ecdf col = Returned v /\ Forall (fun p => 0 < p <= 1) v) /\
  (forall s X Xc,
     combined s X = Returned Xc -> (0 < shape0 Xc)%nat -> (0 < shape1 Xc)%nat ->
     tail_tables_ok (fst (decision_function X s)) Xc) /\
  (forall s X s' r, decision_function X s = (s', Returned r) ->
     exists Xc, combined s X = Returned Xc /\ tail_tables_ok s' Xc).
Proof.
  assert (Hpass : forall s X Xc,
             combined s X = Returned Xc -> (0 < shape0 Xc)%nat -> (0 < shape1 Xc)%nat ->
             tail_tables_ok (fst (decision_function X s)) Xc).
  { intros s X Xc Hcat Hn Hd.
    destruct (decision_function_tables s X Xc Hcat Hn Hd) as [Hl [Hr _]].
    now apply tail_tables_tabulated. }
  split; [exact ecdf_values_in_unit|]. split; [exact Hpass|].
  intros s X s' r Hrun. pose proof Hrun as Hinv. apply decision_function_inv in Hinv.
  destruct Hinv as [Xc [Hcat [Hn [Hd _]]]].
  exists Xc. split; [exact Hcat|].
  replace s' with (fst (decision_function X s)) by (now rewrite Hrun).
  now apply Hpass.
Qed.

Lemma tails_nonneg_witness :
  (exists v, ecdf [1; 2] = Returned v /\ Forall (fun p => 0 < p <= 1) v) /\
  tail_tables_ok (fst (decision_function T2 (fresh (1 / 10)))) T2 /\
  (exists Xc, combined (fresh (1 / 10)) T2 = Returned Xc /\
              tail_tables_ok (scored (fresh (1 / 10)) T2 (map (row_score T2) (rows T2))) Xc).
Proof.
  split; [|split].
  - apply (proj1 tails_nonneg). discriminate.
  - apply (proj1 (proj2 tails_nonneg) (fresh (1 / 10)) T2 T2).
    + reflexivity.
    + unfold shape0, T2; simpl; lia.
    + unfold T2; simpl; lia.
  - apply (proj2 (proj2 tails_nonneg) (fresh (1 / 10)) T2 _ (map (row_score T2) (rows T2))).
    apply (decision_function_returns (fresh (1 / 10)) T2 T2).
    + reflexivity.
    + unfold shape0, T2; simpl; lia.
    + unfold T2; simpl; lia.
    + simpl; lra.
Defined.

(* ================================================================== *)
(** * Row order *)

(** In exact arithmetic the skewness of a column does not depend on the
    order of its entries ([skew_perm]).  In doubles it does: the third
    moment of the three values of [T01] is negative in the order 0.1, 0.2,
    0.3 and positive in the reverse order. *)
Lemma contribution_perm sg col col' x :
  Permutation col col' -> contribution sg col x = contribution sg col' x.
Proof.
  intros H. unfold contribution, left_tail, right_tail.
  rewrite (ecdf_at_perm _ _ x H).
  now rewrite (ecdf_at_perm _ _ (- x) (Permutation_map Ropp H)).
Qed.

Lemma reals_reorder_rows64 p T :
  reals (reorder_rows64 p T) = reorder_rows p (reals T).
Proof.
  unfold reals, reorder_rows64, reorder_rows, reorder; simpl. f_equal.
  rewrite map_map. apply map_ext. intros i.
  change (@nil R) with (map value []). now rewrite map_nth.
Qed.

Lemma row_score64_reorder sk p T r :
  Permutation p (seq 0 (shape0_64 T)) ->
  row_score64 sk (reals (reorder_rows64 p T)) r = row_score64 sk (reals T) r.
Proof.
  intros Hp. rewrite reals_reorder_rows64. unfold row_score64. cbn [shape1 reorder_rows].
  f_equal. apply map_ext. intros j. apply contribution_perm.
  unfold column, reorder_rows; cbn [rows]. apply Permutation_map.
  apply reorder_perm. change (length (rows (reals T))) with (shape0 (reals T)).
  now rewrite shape0_reals.
Qed.

Lemma values_T01 :
  value 0x1.999999999999ap-4%float < value 0x1.999999999999ap-3%float /\
  value 0x1.999999999999ap-3%float < value 0x1.3333333333333p-2%float.
Proof.
  rewrite (value_finite 0x1.999999999999ap-4%float false 7205759403792794 (-56))
    by (vm_compute; reflexivity).
  rewrite (value_finite 0x1.999999999999ap-3%float false 7205759403792794 (-55))
    by (vm_compute; reflexivity).
  rewrite (value_finite 0x1.3333333333333p-2%float false 5404319552844595 (-54))
    by (vm_compute; reflexivity).
  replace (powerRZ 2 (-54)) with (4 * powerRZ 2 (-56)).
  2:{ replace (-54)%Z with (2 + -56)%Z by lia. rewrite powerRZ_add by lra. simpl. lra. }
  replace (powerRZ 2 (-55)) with (2 * powerRZ 2 (-56)).
  2:{ replace (-55)%Z with (1 + -56)%Z by lia. rewrite powerRZ_add by lra. simpl. lra. }
  assert (0 < powerRZ 2 (-56)) by (apply powerRZ_lt; lra).
  split; nra.
Qed.

Lemma skewness64_T01 : skewness64 T01 = [Some (-1)].
Proof.
  unfold skewness64, columns64, column64, T01. cbn [map seq shape1_64 rows64 nth].
  rewrite sign64_neg by (vm_compute; reflexivity). reflexivity.
Qed.

Lemma skewness64_reversed_T01 :
  skewness64 (reorder_rows64 [2; 1; 0]%nat T01) = [Some 1].
Proof.
  unfold skewness64, columns64, column64, reorder_rows64, reorder, T01.
  cbn [map seq shape1_64 rows64 nth].
  rewrite sign64_pos by (vm_compute; reflexivity). reflexivity.
Qed.

Lemma T01_table64 : table64 T01.
Proof.
  unfold table64, shape0_64, T01; cbn [rows64 shape1_64 length].
  repeat split; try lia; repeat constructor.
Qed.

Lemma reversed_T01 : Permutation [2; 1; 0]%nat (seq 0 (shape0_64 T01)).
Proof.
  unfold shape0_64, T01; cbn [rows64 length seq].
  apply Permutation_sym, Permutation_rev with (l := [0; 1; 2]%nat).
Qed.

(** The skewness sign of the one column of [T01] is -1, and 1 once the
    rows are reversed: scoring [T01] and scoring its rows in reverse order
    give the same score array, where the reversed scores were due. *)
Lemma row_order_changes_scores :
  table64 T01 /\
  Permutation [2; 1; 0]%nat (seq 0 (shape0_64 T01)) /\
  skewness64 T01 = [Some (-1)] /\
  skewness64 (reorder_rows64 [2; 1; 0]%nat T01) = [Some 1] /\
  decision_function64 None T01
  = Returned [- ln (1 / 3); - ln (2 / 3); - ln (1 / 3) / 2] /\
  decision_function64 None (reorder_rows64 [2; 1; 0]%nat T01)
  = Returned [- ln (1 / 3); - ln (2 / 3); - ln (1 / 3) / 2] /\
  reorder 0 [2; 1; 0]%nat [- ln (1 / 3); - ln (2 / 3); - ln (1 / 3) / 2]
  = [- ln (1 / 3) / 2; - ln (2 / 3); - ln (1 / 3)] /\
  - ln (1 / 3) <> - ln (1 / 3) / 2.
Proof.
  destruct values_T01 as [H1 H2].
  destruct (contributions_three _ _ _ H1 H2) as [C1 [C2 [C3 [C4 [C5 C6]]]]].
  destruct ln_third as [Ha _].
  split; [exact T01_table64|]. split; [exact reversed_T01|].
  split; [exact skewness64_T01|]. split; [exact skewness64_reversed_T01|].
  split; [|split; [|split; [reflexivity | lra]]].
  - rewrite decision_function64_unfitted
      by (unfold shape0_64, T01; cbn [rows64 shape1_64 length]; lia).
    rewrite skewness64_T01. f_equal.
    unfold row_score64, reals, column, T01. cbn [map seq shape1 rows rows64 shape1_64 nth].
    set (lo := value 0x1.999999999999ap-4%float) in *.
    set (mid := value 0x1.999999999999ap-3%float) in *.
    set (hi := value 0x1.3333333333333p-2%float) in *.
    assert (P : Permutation [lo; mid; hi] [hi; mid; lo])
      by (apply (Permutation_rev [lo; mid; hi])).
    rewrite !(contribution_perm _ _ _ _ P).
    rewrite C4, C5, C6. unfold sum; simpl. repeat (f_equal; try lra).
  - rewrite decision_function64_unfitted
      by (unfold shape0_64, reorder_rows64, reorder, T01;
          cbn [rows64 shape1_64 length map]; lia).
    rewrite skewness64_reversed_T01. f_equal.
    unfold row_score64, reals, column, reorder_rows64, reorder, T01.
    cbn [map seq shape1 rows rows64 shape1_64 nth].
    rewrite C1, C2, C3. unfold sum; simpl. repeat (f_equal; try lra).
Qed.

Lemma skewness64_rotated_T124 :
  skewness64 (reorder_rows64 [2; 0; 1]%nat T124) = [Some 1].
Proof.
  unfold skewness64, columns64, column64, reorder_rows64, reorder, T124.
  cbn [map seq shape1_64 rows64 nth].
  rewrite sign64_pos by (vm_compute; reflexivity). reflexivity.
Qed.

(** C6.  A never-fitted detector scoring a well-formed table [T] of finite
    doubles whose rows have been reordered by a permutation [p] of the row
    positions returns the scores of [T] reordered by [p], whenever the
    skewness signs computed in doubles over the reordered table are those
    computed over [T]; the scores being read up to the rounding of the
    empirical CDF levels, logarithms and sums.  Without that hypothesis
    they can differ, as they do on [T01]. *)
Theorem scores_permute_when_skewness_agrees (T : ndarray64) (p : list nat) :
  table64 T ->
  Permutation p (seq 0 (shape0_64 T)) ->
  skewness64 (reorder_rows64 p T) = skewness64 T ->
  exists scores,
    decision_function64 None T = Returned scores /\
    decision_function64 None (reorder_rows64 p T) = Returned (reorder 0 p scores).
Proof.
  intros HT Hp Hs. pose proof HT as [_ [Hn [Hd _]]].
  exists (map (row_score64 (skewness64 T) (reals T)) (rows (reals T))).
  split; [now apply decision_function64_unfitted|].
  rewrite decision_function64_unfitted.
  - f_equal. rewrite Hs. rewrite reals_reorder_rows64 at 2.
    unfold reorder_rows at 1, reorder. cbn [rows]. rewrite map_map.
    apply map_ext_in. intros i Hi.
    rewrite (row_score64_reorder _ p T _ Hp).
    symmetry. apply nth_map_lt.
    apply (Permutation_in _ Hp), in_seq in Hi.
    change (length (rows (reals T))) with (shape0 (reals T)).
    rewrite shape0_reals. lia.
  - unfold shape0_64, reorder_rows64, reorder; simpl.
    rewrite length_map, (Permutation_length Hp), length_seq. exact Hn.
  - exact Hd.
Qed.

Lemma scores_permute_when_skewness_agrees_witness :
  exists scores,
    decision_function64 None T124 = Returned scores /\
    decision_function64 None (reorder_rows64 [2; 0; 1]%nat T124)
    = Returned (reorder 0 [2; 0; 1]%nat scores).
Proof.
  apply (scores_permute_when_skewness_agrees T124 [2; 0; 1]%nat).
  - exact T124_table64.
  - unfold shape0_64, T124; cbn [rows64 length seq].
    apply Permutation_sym, (Permutation_cons_app [2%nat] [1%nat] 0%nat).
    apply perm_swap.
  - now rewrite skewness64_rotated_T124, skewness64_T124.
Defined.

(* ================================================================== *)
(** * The empirical CDF of a column *)

Lemma count_le_all l x :
  (forall y, In y l -> y <= x) -> count_le l x = length l.
Proof.
  induction l as [|a l IH]; intros H; [reflexivity|].
  rewrite count_le_cons, IH by (intros y Hy; apply H; now right).
  destruct (Rle_dec a x) as [_|Hn]; [reflexivity|].
  exfalso. apply Hn, H. now left.
Qed.

Lemma ecdf_at_mono col x y : x <= y -> ecdf_at col x <= ecdf_at col y.
Proof.
  intros Hxy. unfold ecdf_at.
  destruct col as [|a col]; [simpl; lra|].
  assert (Hn : 0 < INR (length (a :: col))) by (apply lt_0_INR; simpl; lia).
  apply Rmult_le_compat_r; [left; now apply Rinv_0_lt_compat|].
  apply le_INR. now apply count_le_mono.
Qed.

Lemma ecdf_at_max col x :
  col <> [] -> (forall y, In y col -> y <= x) -> ecdf_at col x = 1.
Proof.
  intros Hne Hmax. unfold ecdf_at. rewrite (count_le_all _ _ Hmax).
  apply Rdiv_diag. apply not_0_INR. destruct col; [congruence | discriminate].
Qed.

(** C7.  On a sequence of [n >= 1] reals [ecdf] returns [n] values, the
    one at position [i] being [count(values <= x) / n] for the input value
    [x] at that position; equal inputs get equal values; the value at a
    largest input is 1; and on a strictly increasing column the returned
    array never decreases and ends with 1. *)
Theorem ecdf_counts (col : list R) :
  col <> [] ->
  exists v,
    ecdf col = Returned v /\
    length v = length col /\
    (forall i, (i < length col)%nat ->
       nth i v 0 = INR (count_le col (nth i col 0)) / INR (length col)) /\
    (forall i j, (i < length col)%nat -> (j < length col)%nat ->
       nth i col 0 = nth j col 0 -> nth i v 0 = nth j v 0) /\
    (forall i, (i < length col)%nat ->
       (forall y, In y col -> y <= nth i col 0) -> nth i v 0 = 1) /\
    (strictly_increasing col ->
       non_decreasing v /\ nth (length col - 1) v 0 = 1).
Proof.
  intros Hne. exists (map (ecdf_at col) col).
  assert (Hnth : forall i, (i < length col)%nat ->
                           nth i (map (ecdf_at col) col) 0 = ecdf_at col (nth i col 0)).
  { intros i Hi. now apply nth_map_lt. }
  split; [now apply ecdf_refines|].
  split; [apply length_map|].
  split; [intros i Hi; now rewrite Hnth|].
  split; [intros i j Hi Hj E; now rewrite !Hnth, E|].
  split; [intros i Hi Hmax; rewrite Hnth by exact Hi; now apply ecdf_at_max|].
  intros Hinc.
  assert (Hle : forall i j, (i <= j < length col)%nat -> nth i col 0 <= nth j col 0).
  { intros i j Hij. destruct (Nat.eq_dec i j) as [->|Hneq]; [lra|].
    left. apply Hinc. lia. }
  split.
  - intros i j Hij. rewrite length_map in Hij.
    rewrite !Hnth by lia. apply ecdf_at_mono, Hle. lia.
  - assert (Hlen : (0 < length col)%nat) by (destruct col; [congruence | simpl; lia]).
    rewrite Hnth by lia. apply ecdf_at_max; [exact Hne|].
    intros y Hy. destruct (In_nth _ _ 0 Hy) as [k [Hk <-]]. apply Hle. lia.
Qed.

Lemma ecdf_counts_witness :
  exists v, ecdf [1; 2; 3] = Returned v /\ non_decreasing v /\ nth 2 v 0 = 1.
Proof.
  destruct (ecdf_counts [1; 2; 3]) as [v [Hv [_ [_ [_ [_ Hinc]]]]]]; [discriminate|].
  exists v. split; [exact Hv|]. apply Hinc.
  intros i j [Hij Hj]. simpl in Hj.
  destruct i as [|[|[|i]]], j as [|[|[|j]]]; simpl; try lia; lra.
Defined.

(* ================================================================== *)
(** * Explaining a row: indices *)

Lemma decision_function_T2 :
  decision_function T2 (fresh (1 / 10))
  = (scored (fresh (1 / 10)) T2 (map (row_score T2) (rows T2)),
     Returned (map (row_score T2) (rows T2))).
Proof.
  apply (decision_function_returns (fresh (1 / 10)) T2 T2).
  - reflexivity.
  - unfold shape0, T2; simpl; lia.
  - unfold T2; simpl; lia.
  - simpl; lra.
Qed.

(** C8 as stated fails at a negative index.  After an unfitted detector
    has scored the two-row table [T2], [O] has two rows, [-1] is outside
    [0, 2), and [explain_outlier] at [-1] returns (the last row and the
    two quantile rows) instead of raising. *)
Lemma explain_outlier_negative_index_returns :
  exists o res,
    O (fst (decision_function T2 (fresh (1 / 10)))) = Some o /\
    shape0 o = 2%nat /\
    ~ (0 <= -1 < Z.of_nat (shape0 o))%Z /\
    explain_outlier (-1) None (fst (decision_function T2 (fresh (1 / 10))))
    = (fst (decision_function T2 (fresh (1 / 10))), Returned res).
Proof.
  rewrite decision_function_T2. cbn [fst].
  set (s := scored _ _ _).
  exists (tabulate outlier_cell T2). eexists.
  split; [reflexivity|]. split; [reflexivity|]. split; [lia|].
  eapply (explain_outlier_returns s (tabulate outlier_cell T2)
            (labels_of (threshold_of (1 / 10) (map (row_score T2) (rows T2)))
                       (map (row_score T2) (rows T2)))
            (-1) None _ _ (1 - 1 / 10) (99 / 100) []).
  - reflexivity.
  - simpl; lia.
  - reflexivity.
  - apply (getitem_negative _ []). simpl length. lia.
  - apply (getitem_negative _ 0). simpl length. lia.
  - reflexivity.
  - constructor; [lra | constructor; [lra | constructor]].
Qed.

(** C8, amended.  [explain_outlier] never changes the instance; and when
    the instance holds an [O] of [size] rows, an index [>= size] or
    [< -size] makes it raise [IndexError] (the specification's
    IndexOutOfRangeError), whatever the cutoffs. *)
Theorem explain_outlier_out_of_range (s : COPOD) (o : ndarray) (ind : Z)
        (cutoffs : option (list R)) :
  O s = Some o ->
  (ind >= Z.of_nat (shape0 o) \/ ind < - Z.of_nat (shape0 o))%Z ->
  explain_outlier ind cutoffs s = (s, Raised IndexError) /\
  forall ind' cutoffs' s0, fst (explain_outlier ind' cutoffs' s0) = s0.
Proof.
  intros Ho Hind. split.
  - apply (explain_outlier_row_raises s o); [exact Ho|].
    now apply getitem_out_of_range.
  - intros ind' cutoffs' s0. apply explain_outlier_read_only.
Qed.

Lemma explain_outlier_out_of_range_witness :
  explain_outlier 2 None (scored (fresh (1 / 10)) T2 (map (row_score T2) (rows T2)))
  = (scored (fresh (1 / 10)) T2 (map (row_score T2) (rows T2)), Raised IndexError) /\
  forall ind' cutoffs' s0, fst (explain_outlier ind' cutoffs' s0) = s0.
Proof.
  apply (explain_outlier_out_of_range _ (tabulate outlier_cell T2) 2 None).
  - reflexivity.
  - left. unfold shape0, tabulate, T2; simpl. lia.
Defined.

(* ================================================================== *)
(** * The tables left by [fit] *)

Lemma percentile_returned_inv a q t :
  percentile a q = Returned t -> 0 <= q <= 100.
Proof.
  unfold percentile. destruct (Rle_dec 0 q); [|discriminate].
  destruct (Rle_dec q 100); [|discriminate]. intros _. lra.
Qed.






(* ================================================================== *)
(** * Some sample is always labelled an outlier *)

Lemma kept_scores_nonempty s X Xc :
  combined s X = Returned Xc -> (0 < shape0 Xc)%nat -> kept_scores s X Xc <> [].
Proof.
  unfold combined, kept_scores. intros Hcat Hn.
  assert (Hall : map (row_score Xc) (rows Xc) <> []).
  { intros E. apply (f_equal (@length R)) in E. rewrite length_map in E.
    unfold shape0 in Hn. simpl in E. lia. }
  destruct (X_train s) as [T|]; [|exact Hall].
  unfold concatenate in Hcat.
  destruct (Nat.eqb (shape1 T) (shape1 X)); [|discriminate].
  injection Hcat as <-.
  destruct (shape0 X) as [|k] eqn:Hk; [exact Hall|].
  simpl rows. rewrite map_app.
  set (f := row_score _).
  replace (S k) with (length (map f (rows X))) by (rewrite length_map; exact Hk).
  rewrite slice_from_neg_app by (rewrite length_map; unfold shape0 in Hk; lia).
  intros E. apply (f_equal (@length R)) in E. rewrite length_map in E.
  unfold shape0 in Hk. simpl in E. lia.
Qed.

Lemma scored_some_label_one s Xc r :
  r <> [] ->
  0 <= (1 - contamination s) * 100 <= 100 ->
  exists labels i,
    labels_ (scored s Xc r) = Some labels /\
    (i < length labels)%nat /\ nth i labels 0 = 1.
Proof.
  intros Hne Hq.
  destruct (exists_max r Hne) as [i [Hi Hmax]].
  exists (labels_of (threshold_of (contamination s) r) r), i.
  split; [reflexivity|]. split; [now rewrite labels_of_length|].
  rewrite labels_of_nth by exact Hi.
  destruct (Rge_dec (nth i r 0) (threshold_of (contamination s) r)) as [_|Hlt];
    [reflexivity|].
  exfalso. apply Hlt, Rle_ge.
  apply quantile_linear_le_max; [exact Hne | lra | exact Hmax].
Qed.

(** C10.  After every call of [decision_function] or [fit] that returns,
    some index carries label 1, whatever the contamination level and the
    data: the percentile threshold is at most the largest score, and a
    score equal to the threshold is labelled 1. *)
Theorem some_label_is_one (s s' : COPOD) (X : ndarray) :
  (forall r, decision_function X s = (s', Returned r) ->
     exists labels i,
       labels_ s' = Some labels /\ (i < length labels)%nat /\ nth i labels 0 = 1) /\
  (fit X s = (s', Returned tt) ->
     exists labels i,
       labels_ s' = Some labels /\ (i < length labels)%nat /\ nth i labels 0 = 1).
Proof.
  assert (Hdf : forall s0 X0 r, decision_function X0 s0 = (s', Returned r) ->
            exists labels i,
              labels_ s' = Some labels /\ (i < length labels)%nat /\ nth i labels 0 = 1).
  { intros s0 X0 r Hrun. apply decision_function_inv in Hrun.
    destruct Hrun as [Xc [Hcat [Hn [_ [Hr [-> Hp]]]]]].
    apply scored_some_label_one.
    - rewrite Hr. now apply kept_scores_nonempty.
    - now apply percentile_returned_inv in Hp. }
  split.
  - intros r. apply Hdf.
  - intros Hfit. apply fit_inv in Hfit. destruct Hfit as [_ [_ [r Hrun]]].
    exact (Hdf _ _ r Hrun).
Qed.

Lemma some_label_is_one_witness :
  (exists labels i,
     labels_ (scored (fresh (1 / 10)) T2 (map (row_score T2) (rows T2))) = Some labels /\
     (i < length labels)%nat /\ nth i labels 0 = 1) /\
  (exists labels i,
     labels_ (fst (fit T2 (fresh (1 / 10)))) = Some labels /\
     (i < length labels)%nat /\ nth i labels 0 = 1).
Proof.
  split.
  - apply (proj1 (some_label_is_one (fresh (1 / 10)) _ T2) (map (row_score T2) (rows T2))).
    exact decision_function_T2.
  - apply (proj2 (some_label_is_one (fresh (1 / 10)) _ T2)).
    rewrite fit_T2. reflexivity.
Defined.

(* ================================================================== *)
(** * Small runs *)

Example ecdf_1_2_3_100 :
  ecdf [1; 2; 3; 100] = Returned [1 / 4; 2 / 4; 3 / 4; 4 / 4].
Proof.
  rewrite ecdf_refines by discriminate. f_equal.
  unfold ecdf_at, count_le. simpl.
  repeat match goal with
         | |- context [Rle_dec ?a ?b] => destruct (Rle_dec a b); try lra
         end.
  simpl. repeat (f_equal; try lra).
Qed.

Example ecdf_ties : ecdf [5; 5; 7] = Returned [2 / 3; 2 / 3; 3 / 3].
Proof.
  rewrite ecdf_refines by discriminate. f_equal.
  unfold ecdf_at, count_le. simpl.
  repeat match goal with
         | |- context [Rle_dec ?a ?b] => destruct (Rle_dec a b); try lra
         end.
  simpl. repeat (f_equal; try lra).
Qed.

Example slice_last_two : slice_from_neg 2 [10; 20; 30] = [20; 30].
Proof. reflexivity. Qed.

Example slice_minus_zero : slice_from_neg 0 [10; 20; 30] = [10; 20; 30].
Proof. reflexivity. Qed.

Example getitem_last : getitem [10; 20; 30] (-1) = Returned 30.
Proof. reflexivity. Qed.

Example getitem_past_end : getitem [10; 20; 30] 3 = @Raised R IndexError.
Proof. reflexivity. Qed.

Example getitem_before_start : getitem [10; 20; 30] (-4) = @Raised R IndexError.
Proof. reflexivity. Qed.

Example median_of_two : percentile [3; 1] 50 = Returned 2.
Proof.
  unfold percentile.
  destruct (Rle_dec 0 50); [|lra]. destruct (Rle_dec 50 100); [|lra].
  f_equal. unfold quantile_linear. simpl length. simpl Nat.sub.
  replace (50 / 100 * INR 1) with (/ 2) by (simpl; lra).
  assert (Hf : Zfloor (/ 2) = 0%Z) by (apply Zfloor_eq; simpl; lra).
  rewrite Hf. simpl.
  destruct (Rle_dec 3 1); [lra|]. simpl. lra.
Qed.

Example fit_rejects_empty s : fit Q0 s = (s, Raised ValueError).
Proof. reflexivity. Qed.

(** The scenario of the specification: on [[1], [2], [3], [100]] with
    contamination 1/4 the far row gets the strictly largest score and is
    the only one labelled 1. *)
Lemma skew_sign_T4 : skew_sign [1; 2; 3; 100] = 1.
Proof.
  unfold skew_sign, skew.
  assert (H2 : moment 2 [1; 2; 3; 100] > 0).
  { unfold moment, mean. simpl. lra. }
  assert (H3 : moment 3 [1; 2; 3; 100] > 0).
  { unfold moment, mean. simpl. lra. }
  destruct (Req_dec_T (moment 2 [1; 2; 3; 100]) 0) as [E|_]; [lra|].
  apply sign_pos. apply Rdiv_lt_0_compat; [lra|]. unfold Rpower. apply exp_pos.
Qed.

Lemma ln_quarter : ln (1 / 4) = 2 * ln (1 / 2).
Proof.
  replace (1 / 4) with ((1 / 2) * (1 / 2)) by lra. rewrite ln_mult by lra. lra.
Qed.

Lemma ln_half_three_quarters : ln (1 / 2) < ln (3 / 4) /\ ln (3 / 4) < 0.
Proof.
  split.
  - apply ln_increasing; lra.
  - rewrite <- ln_1. apply ln_increasing; lra.
Qed.

Lemma cells_T4 :
  let col := [1; 2; 3; 100] in
  outlier_cell col 1 = - ln (1 / 2) /\
  outlier_cell col 2 = (- ln (1 / 2) - ln (3 / 4)) / 2 /\
  outlier_cell col 3 = - ln (1 / 2) /\
  outlier_cell col 100 = - 2 * ln (1 / 2).
Proof.
  intros col.
  pose proof ln_half_three_quarters as [Hlt Hneg].
  pose proof ln_quarter as Hq. pose proof ln_1 as H1.
  assert (El1 : ecdf_at col 1 = 1 / 4) by count_sample.
  assert (El2 : ecdf_at col 2 = 1 / 2) by count_sample.
  assert (El3 : ecdf_at col 3 = 3 / 4) by count_sample.
  assert (El4 : ecdf_at col 100 = 1) by count_sample.
  assert (Er1 : ecdf_at (map Ropp col) (Ropp 1) = 1) by count_sample.
  assert (Er2 : ecdf_at (map Ropp col) (Ropp 2) = 3 / 4) by count_sample.
  assert (Er3 : ecdf_at (map Ropp col) (Ropp 3) = 1 / 2) by count_sample.
  assert (Er4 : ecdf_at (map Ropp col) (Ropp 100) = 1 / 4) by count_sample.
  unfold outlier_cell. rewrite !skew_cell_right by apply skew_sign_T4.
  unfold left_tail, right_tail.
  rewrite El1, El2, El3, El4, Er1, Er2, Er3, Er4, Hq, H1.
  repeat split.
  - rewrite Rmax_right by lra. lra.
  - rewrite Rmax_right by lra. lra.
  - rewrite Rmax_left by lra. lra.
  - rewrite Rmax_left by lra. lra.
Qed.

Lemma scores_T4 :
  map (row_score T4) (rows T4)
  = [- ln (1 / 2); (- ln (1 / 2) - ln (3 / 4)) / 2; - ln (1 / 2); - 2 * ln (1 / 2)].
Proof.
  destruct cells_T4 as [C1 [C2 [C3 C4]]].
  unfold row_score, T4, column. simpl. rewrite C1, C2, C3, C4.
  repeat (f_equal; try lra).
Qed.

Lemma threshold_T4 :
  threshold_of (1 / 4) (map (row_score T4) (rows T4)) = - (5 / 4) * ln (1 / 2).
Proof.
  rewrite scores_T4.
  pose proof ln_half_three_quarters as [Hlt Hneg].
  set (b := (- ln (1 / 2) - ln (3 / 4)) / 2). set (c := - 2 * ln (1 / 2)).
  set (a := - ln (1 / 2)).
  assert (Hsort : sort [a; b; a; c] = [b; a; a; c]).
  { simpl.
    repeat (match goal with
            | |- context [Rle_dec ?x ?y] =>
                destruct (Rle_dec x y); try (unfold a, b, c in *; lra)
            end; simpl).
    reflexivity. }
  unfold threshold_of, quantile_linear. rewrite Hsort.
  simpl length. simpl Nat.sub.
  replace ((1 - 1 / 4) * 100 / 100 * INR 3) with (9 / 4) by (simpl; lra).
  assert (Hf : Zfloor (9 / 4) = 2%Z) by (apply Zfloor_eq; simpl; lra).
  rewrite Hf. simpl. unfold a, c. lra.
Qed.

Example scenario_far_row :
  exists s' scores,
    decision_function T4 (fresh (1 / 4)) = (s', Returned scores) /\
    labels_ s' = Some [0; 0; 0; 1] /\
    forall i, (i < 3)%nat -> nth i scores 0 < nth 3 scores 0.
Proof.
  pose proof ln_half_three_quarters as [Hlt Hneg].
  exists (scored (fresh (1 / 4)) T4 (map (row_score T4) (rows T4))),
         (map (row_score T4) (rows T4)).
  split; [|split].
  - apply (decision_function_returns (fresh (1 / 4)) T4 T4).
    + reflexivity.
    + unfold shape0, T4; simpl; lia.
    + unfold T4; simpl; lia.
    + simpl; lra.
  - cbn [labels_ scored contamination fresh]. f_equal.
    rewrite threshold_T4, scores_T4. unfold labels_of. simpl.
    repeat match goal with
           | |- context [Rge_dec ?a ?b] => destruct (Rge_dec a b); try lra
           end.
    reflexivity.
  - rewrite scores_T4. intros i Hi.
    destruct i as [|[|[|i]]]; simpl; try lia; lra.
Qed.

(* ================================================================== *)
(** * Calls that raise before assigning *)

Lemma X_train_after_fit_T2 : X_train (fst (fit T2 (fresh (1 / 10)))) = Some T2.
Proof. rewrite fit_T2. reflexivity. Qed.

(** X1.  [fit] on a table without rows or without columns raises
    [ValueError] at the validation step, before [X_train] or anything else
    is assigned: the instance is left as it was. *)
Theorem fit_rejects_degenerate_table (s : COPOD) (X : ndarray) :
  shape0 X = 0%nat \/ shape1 X = 0%nat ->
  fit X s = (s, Raised ValueError).
Proof.
  intros H. rewrite fit_unfold. unfold check_array.
  destruct (shape0 X) as [|n]; [reflexivity|].
  destruct (shape1 X) as [|d]; [reflexivity|].
  destruct H; discriminate.
Qed.

Lemma fit_rejects_degenerate_table_witness :
  fit Q0 (fresh (1 / 10)) = (fresh (1 / 10), Raised ValueError).
Proof.
  apply (fit_rejects_degenerate_table (fresh (1 / 10)) Q0).
  left. reflexivity.
Defined.

(** X2.  A detector that holds a training table and is asked to score a
    query with another number of columns raises [ValueError] at the
    concatenation and keeps its instance (the tables, scores, threshold
    and labels of the earlier pass) unchanged. *)
Theorem decision_function_column_mismatch (s : COPOD) (T X : ndarray) :
  X_train s = Some T ->
  shape1 T <> shape1 X ->
  decision_function X s = (s, Raised ValueError).
Proof.
  intros Ht Hd. apply decision_function_concat_raises.
  unfold combined, concatenate. rewrite Ht.
  destruct (Nat.eqb_spec (shape1 T) (shape1 X)); [contradiction | reflexivity].
Qed.

Lemma decision_function_column_mismatch_witness :
  decision_function W2 (fst (fit T2 (fresh (1 / 10))))
  = (fst (fit T2 (fresh (1 / 10))), Raised ValueError).
Proof.
  apply (decision_function_column_mismatch _ T2 W2).
  - exact X_train_after_fit_T2.
  - unfold T2, W2; simpl. lia.
Defined.

(** X3.  A never-fitted detector asked to score a table without rows does
    not return an empty score array: it raises, [ValueError] when the
    table has no column either and [ZeroDivisionError] (from the empirical
    CDF of an empty column) otherwise, and assigns nothing. *)
Theorem decision_function_unfitted_no_rows (s : COPOD) (X : ndarray) :
  X_train s = None ->
  shape0 X = 0%nat ->
  decision_function X s
  = (s, Raised (if Nat.eqb (shape1 X) 0 then ValueError else ZeroDivisionError)).
Proof.
  intros Hun Hn.
  assert (Hcat : combined s X = Returned X) by (unfold combined; now rewrite Hun).
  destruct (Nat.eqb_spec (shape1 X) 0) as [Hd|Hd].
  - now apply (decision_function_no_column s X X).
  - apply (decision_function_no_row s X X); [assumption | assumption | lia].
Qed.

Lemma decision_function_unfitted_no_rows_witness :
  decision_function Q0 (fresh (1 / 10)) = (fresh (1 / 10), Raised ZeroDivisionError).
Proof.
  apply (decision_function_unfitted_no_rows (fresh (1 / 10)) Q0); reflexivity.
Defined.

(** X4.  On a detector that was constructed but has not scored anything
    yet, [explain_outlier] raises [AttributeError] at its first read of
    [self.O], for every index and every cutoffs argument. *)
Theorem explain_outlier_before_scoring (c : R) (s : COPOD) (ind : Z)
        (cutoffs : option (list R)) :
  __init__ c = Returned s ->
  explain_outlier ind cutoffs s = (s, Raised AttributeError).
Proof.
  intros Hinit. apply init_inv in Hinit. destruct Hinit as [-> _].
  unfold explain_outlier. rewrite bind_gets.
  now apply bind_getattr_raise.
Qed.

Lemma explain_outlier_before_scoring_witness :
  explain_outlier 0 None (fresh (1 / 10)) = (fresh (1 / 10), Raised AttributeError).
Proof.
  apply (explain_outlier_before_scoring (1 / 10)).
  apply init_valid. lra.
Defined.

(* ================================================================== *)
(** * What a scoring pass keeps *)

Lemma decision_function_state_cases s X :
  fst (decision_function X s) = s \/
  exists Xc scores,
    fst (decision_function X s) = scored s Xc scores \/
    fst (decision_function X s) = scored_before_threshold s Xc scores.
Proof.
  destruct (combined s X) as [Xc|e] eqn:Hcat.
  2:{ left. now rewrite (decision_function_concat_raises _ _ _ Hcat). }
  destruct (Nat.eq_dec (shape1 Xc) 0) as [Hd|Hd].
  { left. now rewrite (decision_function_no_column _ _ _ Hcat Hd). }
  destruct (Nat.eq_dec (shape0 Xc) 0) as [Hn|Hn].
  { left. rewrite (decision_function_no_row _ _ _ Hcat Hn) by lia. reflexivity. }
  right. exists Xc, (kept_scores s X Xc).
  rewrite (decision_function_run s X Xc Hcat) by lia.
  destruct (percentile _ _); [left | right]; reflexivity.
Qed.

Lemma fit_state_cases s X :
  fst (fit X s) = s \/ fst (fit X s) = fst (decision_function X (set_X_train X s)).
Proof.
  rewrite fit_unfold. destruct (check_array X) as [Y|e] eqn:Hchk; [|now left].
  apply check_array_inv in Hchk. destruct Hchk as [-> _].
  right. destruct (decision_function X (set_X_train X s)) as [s2 [r|e]]; reflexivity.
Qed.

(** X5.  Scoring never trains: whatever [decision_function] returns or
    raises, the instance afterwards has the same [X_train] (present or
    absent) and the same [contamination] as before; and [fit] never
    changes [contamination]. *)
Theorem scoring_keeps_training_reference (s : COPOD) (X : ndarray) :
  X_train (fst (decision_function X s)) = X_train s /\
  contamination (fst (decision_function X s)) = contamination s /\
  contamination (fst (fit X s)) = contamination s.
Proof.
  assert (Hdf : forall s0 X0,
             X_train (fst (decision_function X0 s0)) = X_train s0 /\
             contamination (fst (decision_function X0 s0)) = contamination s0).
  { intros s0 X0.
    destruct (decision_function_state_cases s0 X0) as [->|[Xc [sc [->| ->]]]];
      split; reflexivity. }
  split; [apply Hdf|]. split; [apply Hdf|].
  destruct (fit_state_cases s X) as [->| ->]; [reflexivity|].
  now rewrite (proj2 (Hdf _ _)).
Qed.

(* ================================================================== *)
(** * Repeating a call *)

Lemma decision_function_again s X s' r :
  decision_function X s = (s', Returned r) ->
  decision_function X s' = (s', Returned r) /\ decision_scores_ s' = Some r.
Proof.
  intros Hrun. apply decision_function_inv in Hrun.
  destruct Hrun as [Xc [Hcat [Hn [Hd [Hr [-> Hp]]]]]].
  split; [|reflexivity].
  rewrite (decision_function_run (scored s Xc r) X Xc); [| exact Hcat | exact Hn | exact Hd].
  change (kept_scores (scored s Xc r) X Xc) with (kept_scores s X Xc).
  change (contamination (scored s Xc r)) with (contamination s).
  rewrite <- Hr, Hp. reflexivity.
Qed.

Lemma scored_same s1 s2 Xc scores :
  contamination s1 = contamination s2 -> X_train s1 = X_train s2 ->
  scored s1 Xc scores = scored s2 Xc scores.
Proof. intros Hc Ht. unfold scored. now rewrite Hc, Ht. Qed.

Lemma returned_level_is_fraction s X s' r :
  decision_function X s = (s', Returned r) -> 0 <= contamination s <= 1.
Proof.
  intros Hrun. apply decision_function_inv in Hrun.
  destruct Hrun as [Xc [_ [_ [_ [_ [_ Hp]]]]]].
  apply percentile_returned_inv in Hp. lra.
Qed.

(** X6.  A scoring call that returned can be repeated: the same query on
    the instance it left returns the same score array and leaves the
    instance exactly as it is. *)
Theorem decision_function_idempotent (s s' : COPOD) (X : ndarray) (r : list R) :
  decision_function X s = (s', Returned r) ->
  decision_function X s' = (s', Returned r).
Proof. intros Hrun. exact (proj1 (decision_function_again s X s' r Hrun)). Qed.

Lemma decision_function_idempotent_witness :
  decision_function T2 (scored (fresh (1 / 10)) T2 (map (row_score T2) (rows T2)))
  = (scored (fresh (1 / 10)) T2 (map (row_score T2) (rows T2)),
     Returned (map (row_score T2) (rows T2))).
Proof.
  apply (decision_function_idempotent (fresh (1 / 10)) _ T2).
  exact decision_function_T2.
Defined.

(** X7.  A fitted detector asked to score its own training table returns
    the array [fit] left in [decision_scores_] and leaves the instance
    exactly as [fit] left it. *)
Theorem rescoring_training_table (s s' : COPOD) (T : ndarray) :
  fit T s = (s', Returned tt) ->
  exists scores,
    decision_scores_ s' = Some scores /\
    decision_function T s' = (s', Returned scores).
Proof.
  intros Hfit. apply fit_inv in Hfit. destruct Hfit as [_ [_ [r Hrun]]].
  exists r. destruct (decision_function_again _ _ _ _ Hrun) as [H1 H2].
  split; assumption.
Qed.

Lemma rescoring_training_table_witness :
  exists scores,
    decision_scores_ (fst (fit T2 (fresh (1 / 10)))) = Some scores /\
    decision_function T2 (fst (fit T2 (fresh (1 / 10))))
    = (fst (fit T2 (fresh (1 / 10))), Returned scores).
Proof.
  apply (rescoring_training_table (fresh (1 / 10)) _ T2).
  rewrite fit_T2. reflexivity.
Defined.

(** X8.  [fit] forgets what the instance held before: when [fit] on a
    table returns, [fit] on the same table from any instance with the same
    contamination level (fitted on other data, scored, or fresh) ends in
    the very same instance; in particular fitting twice is fitting once. *)
Theorem fit_forgets_history (s s' : COPOD) (T : ndarray) :
  fit T s = (s', Returned tt) ->
  (forall s2, contamination s2 = contamination s -> fit T s2 = (s', Returned tt)) /\
  fit T s' = (s', Returned tt).
Proof.
  intros Hfit.
  assert (Hall : forall s2, contamination s2 = contamination s ->
                            fit T s2 = (s', Returned tt)).
  { intros s2 Hc2. pose proof Hfit as Hinv. apply fit_inv in Hinv.
    destruct Hinv as [Hn [Hd [r Hrun]]].
    pose proof (returned_level_is_fraction _ _ _ _ Hrun) as Hc. simpl in Hc.
    pose proof (fit_returns s T Hn Hd Hc) as H1. cbv zeta in H1.
    rewrite Hfit in H1. injection H1 as ->.
    rewrite (fit_returns s2 T Hn Hd) by (rewrite Hc2; exact Hc). cbv zeta.
    f_equal. apply scored_same; [exact Hc2 | reflexivity]. }
  split; [exact Hall|].
  apply Hall.
  destruct (fit_state_cases s T) as [E|E]; rewrite Hfit in E; simpl in E; subst s'.
  - reflexivity.
  - destruct (decision_function_state_cases (set_X_train T s) T)
      as [->|[Xc [sc [->| ->]]]]; reflexivity.
Qed.

Lemma fit_forgets_history_witness :
  (forall s2, contamination s2 = contamination (fresh (1 / 10)) ->
              fit T2 s2 = (fst (fit T2 (fresh (1 / 10))), Returned tt)) /\
  fit T2 (fst (fit T2 (fresh (1 / 10)))) = (fst (fit T2 (fresh (1 / 10))), Returned tt).
Proof.
  apply (fit_forgets_history (fresh (1 / 10)) _ T2).
  rewrite fit_T2. reflexivity.
Defined.

(* ================================================================== *)
(** * The size of contributions and scores *)

Lemma ln_le_mono x y : 0 < x -> x <= y -> ln x <= ln y.
Proof.
  intros Hx [Hlt| ->]; [|lra]. left. now apply ln_increasing.
Qed.

Lemma count_both_sides l x :
  (length l <= count_le l x + count_le (map Ropp l) (- x))%nat.
Proof.
  induction l as [|a l IH]; [simpl; lia|].
  simpl map. rewrite !count_le_cons. simpl length.
  destruct (Rle_dec a x), (Rle_dec (- a) (- x)); try lia. lra.
Qed.

Lemma count_both_sides_In l x :
  In x l -> (length l + 1 <= count_le l x + count_le (map Ropp l) (- x))%nat.
Proof.
  induction l as [|a l IH]; [intros []|].
  intros Hin. simpl map. rewrite !count_le_cons. simpl length.
  destruct Hin as [->|Hin].
  - pose proof (count_both_sides l x).
    destruct (Rle_dec x x), (Rle_dec (- x) (- x)); try lra. lia.
  - specialize (IH Hin).
    destruct (Rle_dec a x), (Rle_dec (- a) (- x)); try lia. lra.
Qed.

Lemma tails_sum_le col x :
  In x col -> left_tail col x + right_tail col x <= ln (INR (length col)).
Proof.
  intros Hin. unfold left_tail, right_tail, ecdf_at. rewrite length_map.
  assert (Hin' : In (- x) (map Ropp col)) by (apply in_map_iff; now exists x).
  pose proof (count_le_In _ _ Hin) as H1.
  pose proof (count_le_In _ _ Hin') as H2.
  pose proof (count_both_sides_In _ _ Hin) as H3.
  pose proof (count_le_length col x) as H4.
  set (c1 := count_le col x) in *. set (c2 := count_le (map Ropp col) (- x)) in *.
  set (n := length col) in *.
  assert (Hn : 0 < INR n) by (apply lt_0_INR; lia).
  assert (Hc1 : 1 <= INR c1) by (change 1 with (INR 1); apply le_INR; lia).
  assert (Hc2 : 1 <= INR c2) by (change 1 with (INR 1); apply le_INR; lia).
  assert (Hs : INR n + 1 <= INR c1 + INR c2).
  { rewrite <- plus_INR. change 1 with (INR 1). rewrite <- plus_INR. apply le_INR. lia. }
  assert (Hprod : INR n <= INR c1 * INR c2) by nra.
  assert (Hp1 : 0 < INR c1 / INR n) by (apply Rdiv_lt_0_compat; lra).
  assert (Hp2 : 0 < INR c2 / INR n) by (apply Rdiv_lt_0_compat; lra).
  replace (-1 * ln (INR c1 / INR n) + -1 * ln (INR c2 / INR n))
    with (- ln (INR c1 / INR n * (INR c2 / INR n)))
    by (rewrite ln_mult by assumption; lra).
  assert (Hi : 0 < / INR n) by now apply Rinv_0_lt_compat.
  assert (Hln : ln (/ INR n) = - ln (INR n)) by (now apply ln_Rinv).
  assert (Hle : ln (/ INR n) <= ln (INR c1 / INR n * (INR c2 / INR n))).
  { apply ln_le_mono; [exact Hi|].
    replace (INR c1 / INR n * (INR c2 / INR n))
      with (INR c1 * INR c2 * (/ INR n * / INR n)) by (field; lra).
    replace (/ INR n) with (INR n * (/ INR n * / INR n)) at 1 by (field; lra).
    apply Rmult_le_compat_r; [nra | exact Hprod]. }
  lra.
Qed.

Lemma skew_cell_range col x :
  In x col -> 0 <= skew_cell col x <= left_tail col x + right_tail col x.
Proof.
  intros Hin.
  pose proof (left_tail_nonneg _ _ Hin) as Hl.
  pose proof (right_tail_nonneg _ _ Hin) as Hr.
  destruct (sign_cases (skew col)) as [H|[H|H]]; fold (skew_sign col) in H.
  - rewrite (skew_cell_right _ _ H). lra.
  - rewrite (skew_cell_left _ _ H). lra.
  - rewrite (skew_cell_both _ _ H). lra.
Qed.

Lemma outlier_cell_range col x :
  In x col ->
  (left_tail col x + right_tail col x) / 2 <= outlier_cell col x /\
  skew_cell col x <= outlier_cell col x /\
  0 <= outlier_cell col x <= ln (INR (length col)).
Proof.
  intros Hin.
  pose proof (left_tail_nonneg _ _ Hin) as Hl.
  pose proof (right_tail_nonneg _ _ Hin) as Hr.
  pose proof (skew_cell_range _ _ Hin) as Hs.
  pose proof (tails_sum_le _ _ Hin) as Hsum.
  unfold outlier_cell.
  pose proof (Rmax_l (skew_cell col x) ((left_tail col x + right_tail col x) / 2)).
  pose proof (Rmax_r (skew_cell col x) ((left_tail col x + right_tail col x) / 2)).
  repeat split; try lra.
  apply Rmax_lub; lra.
Qed.




Lemma sum_bounds (l : list R) (a b : R) :
  Forall (fun v => a <= v <= b) l ->
  INR (length l) * a <= sum l <= INR (length l) * b.
Proof.
  induction 1 as [|v l Hv _ IH].
  - simpl. lra.
  - change (length (v :: l)) with (S (length l)). rewrite S_INR.
    unfold sum in *. simpl. lra.
Qed.

Lemma row_score_range X r :
  (0 < shape0 X)%nat -> In r (rows X) ->
  0 <= row_score X r <= INR (shape1 X) * ln (INR (shape0 X)).
Proof.
  intros Hn Hr. unfold row_score.
  set (l := map _ _).
  assert (Hall : Forall (fun v => 0 <= v <= ln (INR (shape0 X))) l).
  { apply Forall_forall. intros v Hv. apply in_map_iff in Hv.
    destruct Hv as [j [<- _]].
    pose proof (outlier_cell_range _ _ (column_In j X r Hr)) as [_ [_ H]].
    now rewrite column_length in H. }
  pose proof (sum_bounds l _ _ Hall) as H.
  assert (Hlen : length l = shape1 X) by (unfold l; now rewrite length_map, length_seq).
  rewrite Hlen in H. lra.
Qed.

Lemma In_slice_from_neg {A} (k : nat) (a : list A) (v : A) :
  In v (slice_from_neg k a) -> In v a.
Proof.
  unfold slice_from_neg. destruct k; [trivial|].
  intros H. rewrite <- (firstn_skipn (length a - S k) a).
  apply in_or_app. now right.
Qed.

Lemma In_kept_scores s X Xc v :
  In v (kept_scores s X Xc) -> In v (map (row_score Xc) (rows Xc)).
Proof.
  unfold kept_scores. destruct (X_train s); [apply In_slice_from_neg | trivial].
Qed.

Lemma kept_scores_range s X Xc :
  (0 < shape0 Xc)%nat ->
  Forall (fun v => 0 <= v <= INR (shape1 Xc) * ln (INR (shape0 Xc))) (kept_scores s X Xc).
Proof.
  intros Hn. apply Forall_forall. intros v Hv.
  apply In_kept_scores, in_map_iff in Hv. destruct Hv as [r [<- Hr]].
  now apply row_score_range.
Qed.

(** X10.  Every decision score a call returns lies between 0 and
    [d * ln n], for [n] rows and [d] columns of the combined table the
    pass ran over: no score is negative, and none can grow without bound
    on a table of fixed size. *)
Theorem decision_scores_range (s s' : COPOD) (X : ndarray) (r : list R) :
  decision_function X s = (s', Returned r) ->
  exists Xc,
    combined s X = Returned Xc /\
    Forall (fun v => 0 <= v <= INR (shape1 Xc) * ln (INR (shape0 Xc))) r.
Proof.
  intros Hrun. apply decision_function_inv in Hrun.
  destruct Hrun as [Xc [Hcat [Hn [_ [-> _]]]]].
  exists Xc. split; [exact Hcat | now apply kept_scores_range].
Qed.

Lemma decision_scores_range_witness :
  exists Xc,
    combined (fresh (1 / 10)) T2 = Returned Xc /\
    Forall (fun v => 0 <= v <= INR (shape1 Xc) * ln (INR (shape0 Xc)))
           (map (row_score T2) (rows T2)).
Proof.
  apply (decision_scores_range (fresh (1 / 10)) _ T2 _ decision_function_T2).
Defined.

Lemma exists_min (l : list R) :
  l <> [] -> exists i, (i < length l)%nat /\ forall x, In x l -> nth i l 0 <= x.
Proof.
  induction l as [|a l IH]; [congruence|]. intros _.
  destruct l as [|b l].
  - exists 0%nat. split; [simpl; lia|]. intros x [<-|[]]. simpl. lra.
  - destruct IH as [i [Hi Hmin]]; [discriminate|].
    destruct (Rle_dec (nth i (b :: l) 0) a) as [Hle|Hgt].
    + exists (S i). split; [simpl in *; lia|].
      intros x [<-|Hx]; [exact Hle | now apply Hmin].
    + exists 0%nat. split; [simpl; lia|].
      intros x [<-|Hx]; [simpl; lra|].
      specialize (Hmin x Hx). simpl nth at 1. lra.
Qed.

Lemma quantile_linear_ge_min (a : list R) (q m : R) :
  a <> [] -> 0 <= q <= 1 ->
  (forall x, In x a -> m <= x) ->
  m <= quantile_linear a q.
Proof.
  intros Hne Hq Hmin. unfold quantile_linear.
  assert (Hn : (0 < length a)%nat) by (destruct a; [congruence | simpl; lia]).
  set (n := length a) in *.
  set (v := q * INR (n - 1)).
  assert (Hn1 : 0 <= INR (n - 1)) by apply pos_INR.
  assert (Hv : 0 <= v <= INR (n - 1)) by (unfold v; split; nra).
  pose proof (Zfloor_bound v) as [Hf1 Hf2].
  assert (Hfz : (0 <= Zfloor v)%Z) by (apply Zfloor_lub; simpl; lra).
  set (lo := Z.to_nat (Zfloor v)).
  assert (Hlo : INR lo = IZR (Zfloor v)).
  { unfold lo. rewrite INR_IZR_INZ, Z2Nat.id by exact Hfz. reflexivity. }
  assert (Hlon : (lo <= n - 1)%nat).
  { apply INR_le. rewrite Hlo. lra. }
  set (hi := Nat.min (lo + 1) (n - 1)).
  assert (Hin : forall i, (i < n)%nat -> m <= nth i (sort a) 0).
  { intros i Hi. apply Hmin.
    apply (Permutation_in _ (Permutation_sym (sort_perm a))).
    apply nth_In. rewrite sort_length. exact Hi. }
  assert (Ha : m <= nth lo (sort a) 0) by (apply Hin; lia).
  assert (Hb : m <= nth hi (sort a) 0) by (apply Hin; unfold hi; lia).
  assert (Hg : 0 <= v - INR lo <= 1) by (rewrite Hlo; lra).
  nra.
Qed.

(** X11.  The threshold a returning call stores lies between the smallest
    and the largest of the scores it was computed from (so it is never
    negative either). *)
Theorem threshold_within_scores (s s' : COPOD) (X : ndarray) (r : list R) :
  decision_function X s = (s', Returned r) ->
  exists t i j,
    threshold_ s' = Some t /\
    (i < length r)%nat /\ (j < length r)%nat /\
    nth i r 0 <= t <= nth j r 0 /\
    0 <= t.
Proof.
  intros Hrun. apply decision_function_inv in Hrun.
  destruct Hrun as [Xc [Hcat [Hn [_ [Hr [-> Hp]]]]]].
  assert (Hne : r <> []) by (rewrite Hr; now apply kept_scores_nonempty).
  apply percentile_returned_inv in Hp.
  destruct (exists_min r Hne) as [i [Hi Hmin]].
  destruct (exists_max r Hne) as [j [Hj Hmax]].
  assert (Hq : 0 <= (1 - contamination s) * 100 / 100 <= 1) by lra.
  exists (threshold_of (contamination s) r), i, j.
  pose proof (quantile_linear_ge_min r _ _ Hne Hq Hmin) as Hlo.
  pose proof (quantile_linear_le_max r _ _ Hne Hq Hmax) as Hhi.
  fold (threshold_of (contamination s) r) in Hlo, Hhi.
  repeat split; try assumption; try reflexivity.
  assert (H0 : 0 <= nth i r 0).
  { pose proof (kept_scores_range s X Xc Hn) as Hall. rewrite <- Hr in Hall.
    rewrite Forall_forall in Hall. apply Hall, nth_In, Hi. }
  lra.
Qed.

Lemma threshold_within_scores_witness :
  exists t i j,
    threshold_ (scored (fresh (1 / 10)) T2 (map (row_score T2) (rows T2))) = Some t /\
    (i < length (map (row_score T2) (rows T2)))%nat /\
    (j < length (map (row_score T2) (rows T2)))%nat /\
    nth i (map (row_score T2) (rows T2)) 0 <= t <= nth j (map (row_score T2) (rows T2)) 0 /\
    0 <= t.
Proof.
  apply (threshold_within_scores (fresh (1 / 10)) _ T2 _ decision_function_T2).
Defined.

(* ================================================================== *)
(** * [explain_outlier] as a function of the instance *)

Lemma cutoff_loop_outcome s o cs :
  O s = Some o ->
  for_each cs (fun i => o <- getattr O ;; _ <- lift (quantile_axis0 o i) ;; ret tt) s
  = (s, obind (traverse (quantile_axis0 o) cs) (fun _ => Returned tt)).
Proof.
  intros Ho. induction cs as [|q cs IH]; [reflexivity|].
  simpl for_each. simpl traverse.
  destruct (quantile_axis0 o q) as [v|e] eqn:Hq.
  - erewrite bind_run.
    2:{ rewrite (bind_getattr _ _ _ _ Ho), (bind_lift _ _ _ _ Hq). reflexivity. }
    rewrite IH. simpl. destruct (traverse (quantile_axis0 o) cs); reflexivity.
  - erewrite bind_raise; [reflexivity|].
    rewrite (bind_getattr _ _ _ _ Ho). now apply bind_lift_raise.
Qed.

Lemma explain_outlier_pure ind cutoffs s :
  explain_outlier ind cutoffs s = (s, explain_result s ind cutoffs).
Proof.
  unfold explain_outlier, explain_result. rewrite bind_gets.
  fold (resolve_cutoffs s cutoffs). set (cs := resolve_cutoffs s cutoffs).
  destruct (O s) as [o|] eqn:Ho; [|now apply bind_getattr_raise].
  rewrite (bind_getattr _ _ _ _ Ho).
  destruct (getitem (rows o) ind) as [row|e] eqn:Hrow;
    [|now apply bind_lift_raise].
  rewrite (bind_lift _ _ _ _ eq_refl). simpl obind.
  destruct (traverse (quantile_axis0 o) cs) as [qs|e] eqn:Hloop.
  2:{ erewrite bind_raise; [reflexivity|].
      rewrite (cutoff_loop_outcome s o cs Ho), Hloop. reflexivity. }
  erewrite bind_run by (rewrite (cutoff_loop_outcome s o cs Ho), Hloop; reflexivity).
  simpl obind. rewrite (bind_getattr _ _ _ _ Ho).
  destruct (int_max_max o) as [u|e] eqn:Hmax; [|now apply bind_lift_raise].
  rewrite (bind_lift _ _ _ _ eq_refl). simpl obind.
  rewrite (bind_getattr _ _ _ _ Ho), (bind_lift _ _ _ _ Hmax).
  destruct (labels_ s) as [labels|] eqn:Hl; [|now apply bind_getattr_raise].
  rewrite (bind_getattr _ _ _ _ Hl).
  destruct (getitem labels ind) as [lab|e] eqn:Hlab; [|now apply bind_lift_raise].
  rewrite (bind_lift _ _ _ _ eq_refl). simpl obind.
  rewrite (bind_getattr _ _ _ _ Ho), (bind_lift _ _ _ _ Hrow).
  destruct (getitem cs 0) as [c0|e] eqn:H0; [|now apply bind_lift_raise].
  rewrite (bind_lift _ _ _ _ eq_refl). simpl obind.
  destruct (quantile_axis0 o c0) as [q0|e] eqn:Hq0; [|now apply bind_lift_raise].
  rewrite (bind_lift _ _ _ _ eq_refl). simpl obind.
  destruct (getitem cs 1) as [c1|e] eqn:H1; [|now apply bind_lift_raise].
  rewrite (bind_lift _ _ _ _ eq_refl). simpl obind.
  destruct (quantile_axis0 o c1) as [q1|e] eqn:Hq1; [|now apply bind_lift_raise].
  rewrite (bind_lift _ _ _ _ eq_refl). reflexivity.
Qed.






Lemma getitem_wrap {A} (a : list A) (i : Z) :
  (- Z.of_nat (length a) <= i < 0)%Z ->
  getitem a i = getitem a (Z.of_nat (length a) + i).
Proof.
  intros H. destruct a as [|x a]; [simpl in H; lia|].
  rewrite (getitem_negative _ x i H).
  rewrite (getitem_nonneg _ x (Z.of_nat (length (x :: a)) + i)) by lia.
  reflexivity.
Qed.

Lemma unfitted_scored_lengths s X s' r :
  X_train s = None ->
  decision_function X s = (s', Returned r) ->
  exists o labels,
    O s' = Some o /\ labels_ s' = Some labels /\
    shape0 o = shape0 X /\ length labels = shape0 X /\ length r = shape0 X.
Proof.
  intros Hun Hrun. apply decision_function_inv in Hrun.
  destruct Hrun as [Xc [Hcat [_ [_ [Hr [-> _]]]]]].
  unfold combined in Hcat. rewrite Hun in Hcat. injection Hcat as <-.
  unfold kept_scores in Hr. rewrite Hun in Hr.
  exists (tabulate outlier_cell X), (labels_of (threshold_of (contamination s) r) r).
  rewrite shape0_tabulate, labels_of_length. subst r. rewrite length_map.
  repeat split.
Qed.

(** X14.  After a never-fitted detector has scored a table of [n] rows,
    [explain_outlier] reads a negative index [-n <= ind < 0] as the row
    [n + ind]: the two calls return or raise the same, for every cutoffs
    argument. *)
Theorem explain_outlier_index_wraps (s s' : COPOD) (X : ndarray) (r : list R)
        (ind : Z) (cutoffs : option (list R)) :
  X_train s = None ->
  decision_function X s = (s', Returned r) ->
  (- Z.of_nat (shape0 X) <= ind < 0)%Z ->
  explain_outlier ind cutoffs s' = explain_outlier (Z.of_nat (shape0 X) + ind) cutoffs s'.
Proof.
  intros Hun Hrun Hind.
  destruct (unfitted_scored_lengths s X s' r Hun Hrun) as [o [labels [Ho [Hl [Hn [Hm _]]]]]].
  rewrite !explain_outlier_pure. f_equal.
  unfold explain_result. rewrite Ho, Hl.
  unfold shape0 in Hn.
  rewrite (getitem_wrap (rows o) ind) by (rewrite Hn; exact Hind).
  rewrite (getitem_wrap labels ind) by (rewrite Hm; exact Hind).
  now rewrite Hn, Hm.
Qed.

Lemma explain_outlier_index_wraps_witness :
  explain_outlier (-1) None (scored (fresh (1 / 10)) T2 (map (row_score T2) (rows T2)))
  = explain_outlier (Z.of_nat (shape0 T2) + -1) None
      (scored (fresh (1 / 10)) T2 (map (row_score T2) (rows T2))).
Proof.
  apply (explain_outlier_index_wraps (fresh (1 / 10)) _ T2
           (map (row_score T2) (rows T2))).
  - reflexivity.
  - exact decision_function_T2.
  - unfold shape0, T2; simpl. lia.
Defined.



(* ================================================================== *)
(** * Scoring new rows against the training table *)

(** X16.  A fitted detector (training table of [m] rows) given a query of
    [k >= 1] rows with the same number of columns returns exactly [k]
    scores, the score of query row [i] being its row score within the
    [m + k]-row table of training rows followed by query rows; afterwards
    the four stored tables have [m + k] rows, while [decision_scores_] and
    [labels_] have [k] entries. *)
Theorem query_scored_with_training (s : COPOD) (T X : ndarray) :
  X_train s = Some T ->
  shape1 T = shape1 X -> (0 < shape1 T)%nat -> (0 < shape0 X)%nat ->
  0 <= contamination s <= 1 ->
  let Xc := mk_array (shape1 T) (rows T ++ rows X) in
  exists s' r ul ur us o labels,
    decision_function X s = (s', Returned r) /\
    r = map (row_score Xc) (rows X) /\
    length r = shape0 X /\
    decision_scores_ s' = Some r /\
    U_l s' = Some ul /\ U_r s' = Some ur /\ U_skew s' = Some us /\ O s' = Some o /\
    labels_ s' = Some labels /\
    shape0 ul = (shape0 T + shape0 X)%nat /\ shape0 ur = (shape0 T + shape0 X)%nat /\
    shape0 us = (shape0 T + shape0 X)%nat /\ shape0 o = (shape0 T + shape0 X)%nat /\
    length labels = shape0 X.
Proof.
  intros Ht Hd1 Hd Hk Hc Xc.
  pose proof (decision_function_fitted s T X Ht Hd1 Hd Hk Hc) as Hrun. cbv zeta in Hrun.
  fold Xc in Hrun.
  assert (Hlen : shape0 Xc = (shape0 T + shape0 X)%nat).
  { unfold shape0, Xc; simpl. apply length_app. }
  eexists. eexists.
  exists (tabulate left_tail Xc), (tabulate right_tail Xc),
         (tabulate skew_cell Xc), (tabulate outlier_cell Xc).
  eexists.
  split; [exact Hrun|].
  rewrite !shape0_tabulate.
  repeat split; try reflexivity; try exact Hlen.
  - apply length_map.
  - simpl. rewrite labels_of_length. apply length_map.
Qed.

Lemma query_scored_with_training_witness :
  exists s' r ul ur us o labels,
    decision_function Q1 (fst (fit T2 (fresh (1 / 10)))) = (s', Returned r) /\
    r = map (row_score (mk_array (shape1 T2) (rows T2 ++ rows Q1))) (rows Q1) /\
    length r = shape0 Q1 /\
    decision_scores_ s' = Some r /\
    U_l s' = Some ul /\ U_r s' = Some ur /\ U_skew s' = Some us /\ O s' = Some o /\
    labels_ s' = Some labels /\
    shape0 ul = (shape0 T2 + shape0 Q1)%nat /\ shape0 ur = (shape0 T2 + shape0 Q1)%nat /\
    shape0 us = (shape0 T2 + shape0 Q1)%nat /\ shape0 o = (shape0 T2 + shape0 Q1)%nat /\
    length labels = shape0 Q1.
Proof.
  apply (query_scored_with_training (fst (fit T2 (fresh (1 / 10)))) T2 Q1).
  - exact X_train_after_fit_T2.
  - reflexivity.
  - unfold T2; simpl; lia.
  - unfold shape0, Q1; simpl; lia.
  - rewrite fit_T2. simpl. lra.
Defined.

(* ================================================================== *)
(** * Labels follow the scores *)

(** X17.  After a call that returns, every label is 0 or 1, and labels
    never go against the scores: a row scored at least as high as a row
    labelled 1 is labelled 1 too. *)
Theorem labels_follow_scores (s s' : COPOD) (X : ndarray) (r : list R) :
  decision_function X s = (s', Returned r) ->
  exists labels,
    labels_ s' = Some labels /\
    length labels = length r /\
    (forall i, (i < length r)%nat -> nth i labels 0 = 0 \/ nth i labels 0 = 1) /\
    (forall i j, (i < length r)%nat -> (j < length r)%nat ->
       nth i r 0 <= nth j r 0 -> nth i labels 0 = 1 -> nth j labels 0 = 1).
Proof.
  intros Hrun. apply decision_function_inv in Hrun.
  destruct Hrun as [Xc [_ [_ [_ [_ [-> _]]]]]].
  exists (labels_of (threshold_of (contamination s) r) r).
  split; [reflexivity|]. split; [apply labels_of_length|]. split.
  - intros i Hi. rewrite labels_of_nth by exact Hi.
    destruct (Rge_dec _ _); [right | left]; reflexivity.
  - intros i j Hi Hj Hle. rewrite !labels_of_nth by assumption.
    destruct (Rge_dec (nth i r 0) _) as [Hge|_]; [|intros; lra].
    destruct (Rge_dec (nth j r 0) _) as [_|Hn]; [reflexivity|].
    exfalso. apply Hn. lra.
Qed.

Lemma labels_follow_scores_witness :
  exists labels,
    labels_ (scored (fresh (1 / 10)) T2 (map (row_score T2) (rows T2))) = Some labels /\
    length labels = length (map (row_score T2) (rows T2)) /\
    (forall i, (i < length (map (row_score T2) (rows T2)))%nat ->
       nth i labels 0 = 0 \/ nth i labels 0 = 1) /\
    (forall i j, (i < length (map (row_score T2) (rows T2)))%nat ->
       (j < length (map (row_score T2) (rows T2)))%nat ->
       nth i (map (row_score T2) (rows T2)) 0 <= nth j (map (row_score T2) (rows T2)) 0 ->
       nth i labels 0 = 1 -> nth j labels 0 = 1).
Proof.
  apply (labels_follow_scores (fresh (1 / 10)) _ T2 _ decision_function_T2).
Defined.

(* ================================================================== *)
(** * A table of identical rows *)

Lemma outlier_cell_constant col x :
  In x col -> (forall y, In y col -> y = x) -> outlier_cell col x = 0.
Proof.
  intros Hin Hall.
  assert (Hne : col <> []) by (intros ->; destruct Hin).
  assert (Hl : left_tail col x = 0).
  { unfold left_tail. rewrite ecdf_at_max; [rewrite ln_1; lra | exact Hne |].
    intros y Hy. rewrite (Hall y Hy). lra. }
  assert (Hr : right_tail col x = 0).
  { unfold right_tail. rewrite ecdf_at_max; [rewrite ln_1; lra | |].
    - intros E. apply map_eq_nil in E. contradiction.
    - intros y Hy. apply in_map_iff in Hy. destruct Hy as [z [<- Hz]].
      rewrite (Hall z Hz). lra. }
  pose proof (skew_cell_range col x Hin) as Hs.
  unfold outlier_cell. rewrite Hl, Hr in *.
  replace (skew_cell col x) with 0 by lra.
  replace ((0 + 0) / 2) with 0 by lra. apply Rmax_left. lra.
Qed.

Lemma sum_zeros (l : list R) : Forall (fun v => v = 0) l -> sum l = 0.
Proof. induction 1 as [|v l Hv _ IH]; unfold sum in *; simpl; lra. Qed.

Lemma row_score_constant X r0 :
  (forall r, In r (rows X) -> r = r0) ->
  forall r, In r (rows X) -> row_score X r = 0.
Proof.
  intros Hall r Hr. unfold row_score. apply sum_zeros.
  apply Forall_forall. intros v Hv. apply in_map_iff in Hv.
  destruct Hv as [j [<- _]].
  apply outlier_cell_constant; [now apply column_In|].
  intros y Hy. unfold column in Hy. apply in_map_iff in Hy.
  destruct Hy as [r' [<- Hr']]. now rewrite (Hall r Hr), (Hall r' Hr').
Qed.

(** X18.  When all rows of the combined table are the same row (in
    particular when it has a single row), a call that returns gives every
    row the score 0, stores the threshold 0 and labels every row 1: with
    nothing to compare against, everything is flagged. *)
Theorem identical_rows_all_flagged (s s' : COPOD) (X Xc : ndarray) (r : list R)
        (r0 : list R) :
  combined s X = Returned Xc ->
  (forall row, In row (rows Xc) -> row = r0) ->
  decision_function X s = (s', Returned r) ->
  Forall (fun v => v = 0) r /\
  threshold_ s' = Some 0 /\
  exists labels,
    labels_ s' = Some labels /\ length labels = length r /\
    Forall (fun l => l = 1) labels.
Proof.
  intros Hcat Hall Hrun. apply decision_function_inv in Hrun.
  destruct Hrun as [Xc' [Hcat' [Hn [_ [Hr [-> Hp]]]]]].
  rewrite Hcat in Hcat'. injection Hcat' as <-.
  assert (Hzero : Forall (fun v => v = 0) r).
  { apply Forall_forall. intros v Hv. rewrite Hr in Hv.
    apply In_kept_scores, in_map_iff in Hv. destruct Hv as [row [<- Hrow]].
    now apply (row_score_constant Xc r0). }
  assert (Hne : r <> []) by (rewrite Hr; now apply kept_scores_nonempty).
  apply percentile_returned_inv in Hp.
  assert (Hq : 0 <= (1 - contamination s) * 100 / 100 <= 1) by lra.
  assert (Ht : threshold_of (contamination s) r = 0).
  { rewrite Forall_forall in Hzero.
    pose proof (quantile_linear_ge_min r _ 0 Hne Hq) as Hlo.
    pose proof (quantile_linear_le_max r _ 0 Hne Hq) as Hhi.
    unfold threshold_of.
    assert (0 <= quantile_linear r ((1 - contamination s) * 100 / 100))
      by (apply Hlo; intros x Hx; rewrite (Hzero x Hx); lra).
    assert (quantile_linear r ((1 - contamination s) * 100 / 100) <= 0)
      by (apply Hhi; intros x Hx; rewrite (Hzero x Hx); lra).
    lra. }
  split; [exact Hzero|]. split; [simpl; now rewrite Ht|].
  exists (labels_of (threshold_of (contamination s) r) r).
  split; [reflexivity|]. split; [apply labels_of_length|].
  rewrite Ht. unfold labels_of. apply Forall_forall. intros l Hl.
  apply in_map_iff in Hl. destruct Hl as [v [<- Hv]].
  rewrite Forall_forall in Hzero. rewrite (Hzero v Hv).
  destruct (Rge_dec 0 0); [reflexivity | lra].
Qed.

Lemma identical_rows_all_flagged_witness :
  Forall (fun v => v = 0) (map (row_score K2) (rows K2)) /\
  threshold_ (scored (fresh (1 / 10)) K2 (map (row_score K2) (rows K2))) = Some 0 /\
  exists labels,
    labels_ (scored (fresh (1 / 10)) K2 (map (row_score K2) (rows K2))) = Some labels /\
    length labels = length (map (row_score K2) (rows K2)) /\
    Forall (fun l => l = 1) labels.
Proof.
  apply (identical_rows_all_flagged (fresh (1 / 10)) _ K2 K2 _ [7; 3]).
  - reflexivity.
  - intros row Hrow. unfold K2 in Hrow; simpl in Hrow.
    destruct Hrow as [<-|[<-|[]]]; reflexivity.
  - apply (decision_function_returns (fresh (1 / 10)) K2 K2).
    + reflexivity.
    + unfold shape0, K2; simpl; lia.
    + unfold K2; simpl; lia.
    + simpl; lra.
Defined.
